(** * gary: proper-motion rotation and orbit analysis

    A shallow embedding of [gary/coordinates/propermotion.py] and of the
    orbit-analysis functions exercised by [gary/dynamics/tests/test_core.py].

    Arithmetic is idealised: a Python float is a real number and rounding is
    not modelled.  The one IEEE feature that is kept is the one the code
    relies on: numpy's division by zero does not raise, it produces [nan]
    or an infinity. *)

From Stdlib Require Import Reals Lra List ZArith Bool Arith Lia.
Import ListNotations.

Open Scope R_scope.

(** ** Exceptions and results *)

(** The exceptions the modelled code can raise.  [UnitConversionError] is
    astropy's (the spec calls it UnitMismatchError), [LinAlgError] is
    numpy's, [InsufficientDataError] belongs to the orbit analyzer. *)
Inductive exn : Type :=
| UnitConversionError
| LinAlgError
| InsufficientDataError.

Inductive result (A : Type) : Type :=
| Ok (a : A)
| Raise (e : exn).

Arguments Ok {A} a.
Arguments Raise {A} e.

Definition bind {A B : Type} (m : result A) (k : A -> result B) : result B :=
  match m with
  | Ok a => k a
  | Raise e => Raise e
  end.

Notation "x <- m ;; k" := (bind m (fun x => k))
  (at level 61, m at next level, right associativity).

Definition returns {A : Type} (m : result A) : Prop := exists a, m = Ok a.
Definition raises {A : Type} (m : result A) : Prop := exists e, m = Raise e.

(** ** numpy floats *)

Module Numpy.

(** A float is a finite real, an infinity or [nan]. *)
Inductive npfloat : Type :=
| Fin (x : R)
| Inf (negative : bool)
| NaN.

Definition is_zero (x : R) : bool := if Req_dec_T x 0 then true else false.
Definition is_neg (x : R) : bool := if Rlt_dec x 0 then true else false.

(** [x / y] on finite floats: [0/0] is [nan], [x/0] an infinity. *)
Definition np_div (x y : R) : npfloat :=
  if is_zero y then (if is_zero x then NaN else Inf (is_neg x))
  else Fin (x / y).

Definition fmul (a b : npfloat) : npfloat :=
  match a, b with
  | Fin x, Fin y => Fin (x * y)
  | NaN, _ | _, NaN => NaN
  | Inf s, Inf t => Inf (xorb s t)
  | Inf s, Fin y | Fin y, Inf s =>
      if is_zero y then NaN else Inf (xorb s (is_neg y))
  end.

Definition fadd (a b : npfloat) : npfloat :=
  match a, b with
  | Fin x, Fin y => Fin (x + y)
  | NaN, _ | _, NaN => NaN
  | Inf s, Inf t => if Bool.eqb s t then Inf s else NaN
  | Inf s, Fin _ | Fin _, Inf s => Inf s
  end.

(** [np.sqrt(x)]: [nan] for a negative argument. *)
Definition np_sqrt (x : R) : npfloat :=
  if is_neg x then NaN else Fin (sqrt x).

(** 2x2 arrays and 2-vectors, row major. *)
Record mat2 (A : Type) : Type := Mat2 { m11 : A; m12 : A; m21 : A; m22 : A }.
Arguments Mat2 {A}.
Arguments m11 {A}. Arguments m12 {A}. Arguments m21 {A}. Arguments m22 {A}.

Definition vec2 (A : Type) : Type := (A * A)%type.

(** [np.array([[a, b], [c, d]]) / s] *)
Definition mat_div (M : mat2 R) (s : R) : mat2 npfloat :=
  Mat2 (np_div (m11 M) s) (np_div (m12 M) s)
       (np_div (m21 M) s) (np_div (m22 M) s).

(** [M.dot(v)] *)
Definition dot (M : mat2 npfloat) (v : vec2 npfloat) : vec2 npfloat :=
  (fadd (fmul (m11 M) (fst v)) (fmul (m12 M) (snd v)),
   fadd (fmul (m21 M) (fst v)) (fmul (m22 M) (snd v))).

(** [np.linalg.inv(M)]: LinAlgError on a singular matrix (LAPACK finds an
    exactly zero pivot, which in exact arithmetic is a zero determinant).
    The matrix whose entries are all [nan] has no zero pivot and comes back
    filled with [nan]; it is the only matrix with an entry that is not
    finite that [rotation] below can produce.  What numpy does with a
    matrix that mixes finite and other entries depends on the LAPACK
    routine; the last case covers them for totality only and nothing
    below rests on it. *)
Definition linalg_inv (M : mat2 npfloat) : result (mat2 npfloat) :=
  match m11 M, m12 M, m21 M, m22 M with
  | Fin a, Fin b, Fin c, Fin d =>
      let det := a * d - b * c in
      if is_zero det then Raise LinAlgError
      else Ok (Mat2 (Fin (d / det)) (Fin (- b / det))
                    (Fin (- c / det)) (Fin (a / det)))
  | _, _, _, _ => Ok (Mat2 NaN NaN NaN NaN)
  end.

End Numpy.

(** ** astropy quantities *)

Module Units.

(** A unit is a scale to the base system and the powers of the base
    physical dimensions; two units are convertible when the powers agree. *)
Record unit : Type := Unit { scale : R; powers : list Z }.

Definition convertible (u v : unit) : bool :=
  if list_eq_dec Z.eq_dec (powers u) (powers v) then true else false.

Record Quantity : Type := Q { value : Numpy.npfloat; unit_of : unit }.

(** [q.to(u)]: the value is multiplied by the ratio of the scales. *)
Definition to (q : Quantity) (u : unit) : result Quantity :=
  if convertible (unit_of q) u
  then Ok (Q (Numpy.fmul (value q) (Numpy.Fin (scale (unit_of q) / scale u))) u)
  else Raise UnitConversionError.

(** [q * x] for a dimensionless number [x] *)
Definition qscale (q : Quantity) (x : R) : Quantity :=
  Q (Numpy.fmul (value q) (Numpy.Fin x)) (unit_of q).

(** A 2-element array of floats carrying one unit. *)
Record Quantity2 : Type :=
  Q2 { values : Numpy.vec2 Numpy.npfloat; unit2 : unit }.

(** Unpacking [a, b = mu] of a 2-element quantity array. *)
Definition unpack (m : Quantity2) : Quantity * Quantity :=
  (Q (fst (values m)) (unit2 m), Q (snd (values m)) (unit2 m)).

(** Two quantities stand for the same physical amount. *)
Definition same_amount (p q : Quantity) : Prop :=
  convertible (unit_of p) (unit_of q) = true /\
  Numpy.fmul (value p) (Numpy.Fin (scale (unit_of p))) =
  Numpy.fmul (value q) (Numpy.Fin (scale (unit_of q))).

Definition same_vector (m : Quantity2) (mu : Quantity * Quantity) : Prop :=
  same_amount (fst (unpack m)) (fst mu) /\
  same_amount (snd (unpack m)) (snd mu).

End Units.

(** ** gary/coordinates/propermotion.py *)

Module ProperMotion.
Import Numpy Units.

(** What [coordinate.transform_to] gives in the two frames (the frame
    transform is astropy's): right ascension and declination in ICRS,
    longitude and latitude in the Galactic frame, in radians. *)
Record SkyCoord : Type :=
  Sky { ra : R; dec : R; gal_l : R; gal_b : R }.

Section Rotation.

(** [coord.Galactic._ngp_J2000.ra] and [.dec], the equatorial coordinates
    of the North Galactic Pole, constants of astropy. *)
Variables ag dg : R.

Definition C1 (i : SkyCoord) : R :=
  sin dg * cos (dec i) - cos dg * sin (dec i) * cos (ra i - ag).

Definition C2 (i : SkyCoord) : R :=
  cos dg * sin (ra i - ag).

Definition cosb_at (i : SkyCoord) : R :=
  sqrt (C1 i ^ 2 + C2 i ^ 2).

(** [R = np.array([[C1, C2],[-C1, C2]]) / cosb] *)
Definition rotation (i : SkyCoord) : mat2 npfloat :=
  mat_div (Mat2 (C1 i) (C2 i) (- C1 i) (C2 i)) (cosb_at i).

Definition pm_gal_to_icrs (coordinate : SkyCoord) (mu : Quantity * Quantity)
    (cosb : bool) : result Quantity2 :=
  let '(mul, mub) := mu in
  let mulcosb :=
    if cosb then mul else qscale mul (cos (gal_b coordinate)) in
  let rot := rotation coordinate in
  mub' <- to mub (unit_of mulcosb) ;;
  let mu' := (value mulcosb, value mub') in
  inv_rot <- linalg_inv rot ;;
  Ok (Q2 (dot inv_rot mu') (unit_of mulcosb)).

Definition pm_icrs_to_gal (coordinate : SkyCoord) (mu : Quantity * Quantity)
    (cosdec : bool) : result Quantity2 :=
  let '(mua, mud) := mu in
  let muacosd :=
    if cosdec then mua else qscale mua (cos (dec coordinate)) in
  let rot := rotation coordinate in
  mud' <- to mud (unit_of muacosd) ;;
  let mu' := (value muacosd, value mud') in
  Ok (Q2 (dot rot mu') (unit_of muacosd)).

(** *** The conversion as the specification words it *)

(** Real 2x2 matrices: product with a vector, determinant, inverse. *)
Definition rmatvec (M : mat2 R) (v : R * R) : R * R :=
  (m11 M * fst v + m12 M * snd v, m21 M * fst v + m22 M * snd v).

Definition rdet (M : mat2 R) : R := m11 M * m22 M - m12 M * m21 M.

Definition rinverse (M : mat2 R) : mat2 R :=
  Mat2 (m22 M / rdet M) (- m12 M / rdet M)
       (- m21 M / rdet M) (m11 M / rdet M).

(** Step 5: R = (1/cosb) . [[C1, C2], [-C1, C2]], with the elements of
    step 4. *)
Definition spec_R (alpha delta : R) : mat2 R :=
  let c1 := sin dg * cos delta - cos dg * sin delta * cos (alpha - ag) in
  let c2 := cos dg * sin (alpha - ag) in
  let cosb := sqrt (c1 ^ 2 + c2 ^ 2) in
  Mat2 (1 / cosb * c1) (1 / cosb * c2) (1 / cosb * - c1) (1 / cosb * c2).

(** Step 2: the longitude component times cos(latitude) unless it is
    already scaled; the latitude component is read in the unit of the
    longitude component. *)
Definition spec_scaled (already_scaled : bool) (latitude : R)
    (lon lat : R) (ulon ulat : unit) : R * R :=
  ((if already_scaled then lon else lon * cos latitude),
   lat * (scale ulat / scale ulon)).

Definition lift (v : R * R) : vec2 npfloat := (Fin (fst v), Fin (snd v)).

(** A proper-motion vector in the cos-scaled convention: the vector itself
    when its longitude component is already scaled. *)
Definition scaled_mu (already_scaled : bool) (latitude : R)
    (mu : Quantity * Quantity) : Quantity * Quantity :=
  if already_scaled then mu else (qscale (fst mu) (cos latitude), snd mu).

End Rotation.
End ProperMotion.

(** Modelled from the spec: the values of [coord.Galactic._ngp_J2000], a
    constant of astropy.  Step 3 quotes them in degrees; they are the
    constants at which the closed examples are evaluated, in radians. *)
Definition ngp_ra_J2000 : R := 192.85948 * PI / 180.
Definition ngp_dec_J2000 : R := 27.12825 * PI / 180.

(** Three positions on the sky, with the pole at its J2000 values: the
    ascending node of the Galactic plane on the celestial equator, the
    North Galactic Pole itself, and the point of the celestial equator on
    the meridian of the pole. *)
Definition galactic_node : ProperMotion.SkyCoord :=
  ProperMotion.Sky (ngp_ra_J2000 + PI / 2) 0 (32.93192 * PI / 180) 0.
Definition north_galactic_pole : ProperMotion.SkyCoord :=
  ProperMotion.Sky ngp_ra_J2000 ngp_dec_J2000 0 (PI / 2).
Definition equator_below_pole : ProperMotion.SkyCoord :=
  ProperMotion.Sky ngp_ra_J2000 0 (302.93192 * PI / 180)
                   (PI / 2 - ngp_dec_J2000).

(** A fourth position, off the celestial equator: declination 60 degrees
    on the meridian a quarter turn east of the pole's, with the Galactic
    coordinates that belong to it. *)
Definition off_equator : ProperMotion.SkyCoord :=
  ProperMotion.Sky (ngp_ra_J2000 + PI / 2) (PI / 3)
    (122.93192 * PI / 180 - atan (1 / (sqrt 3 * cos ngp_dec_J2000)))
    (asin (sqrt 3 / 2 * sin ngp_dec_J2000)).

(** Milliarcseconds per year and degrees per year: two angular-rate units,
    and the metre, which is not one. *)
Definition mas_per_yr : Units.unit :=
  Units.Unit (PI / 648000000) [1%Z; (-1)%Z; 0%Z].
Definition deg_per_yr : Units.unit :=
  Units.Unit (PI / 180) [1%Z; (-1)%Z; 0%Z].
Definition metre : Units.unit :=
  Units.Unit 1 [0%Z; 0%Z; 1%Z].

(** ** gary/dynamics: the orbit analyzer *)

Module Dynamics.

Record vec3 : Type := V3 { x : R; y : R; z : R }.

(** One time sample of a trajectory: position and velocity. *)
Record sample : Type := W { pos : vec3; vel : vec3 }.

(** A trajectory is the sequence of its samples in time order, so position
    and velocity share the time axis; a batch holds one trajectory per
    orbit instance. *)
Definition trajectory : Type := list sample.
Definition batch : Type := list trajectory.

Definition cross (q p : vec3) : vec3 :=
  V3 (y q * z p - z q * y p)
     (z q * x p - x q * z p)
     (x q * y p - y q * x p).

(** Modelled from the spec: [angular_momentum] is defined in
    gary/dynamics/core.py, which is not among the sources.  Section 4.2:
    the cross product of position and velocity at each time sample. *)
Definition angular_momentum (w : trajectory) : list vec3 :=
  map (fun s => cross (pos s) (vel s)) w.

(** Modelled from the spec: the same over the batch axis, instance by
    instance. *)
Definition angular_momentum_many (ws : batch) : list (list vec3) :=
  map angular_momentum ws.

(** The shape of an array of 3-vectors over a time axis, and the lengths
    of the time axes of the instances of a batch. *)
Definition shape {A : Type} (a : list A) : nat * nat := (3%nat, length a).
Definition shapes {A : Type} (b : list (list A)) : list (nat * nat) :=
  map shape b.

Inductive axis : Type := AxisX | AxisY | AxisZ.

Definition component (k : axis) (v : vec3) : R :=
  match k with AxisX => x v | AxisY => y v | AxisZ => z v end.

(** A circulation classification: one flag per Cartesian axis. *)
Record circulation : Type := Circ { cx : nat; cy : nat; cz : nat }.

Definition flag (c : circulation) (k : axis) : nat :=
  match k with AxisX => cx c | AxisY => cy c | AxisZ => cz c end.

Definition flag_sum (c : circulation) : nat := cx c + cy c + cz c.

Definition box : circulation := Circ 0 0 0.

(** Relabelling of the axes of one sample: (x,y,z) -> (y,z,x) brings the
    x axis to index 2, (x,y,z) -> (z,x,y) brings the y axis there. *)
Definition x_to_z (v : vec3) : vec3 := V3 (y v) (z v) (x v).
Definition y_to_z (v : vec3) : vec3 := V3 (z v) (x v) (y v).

Definition relabel (f : vec3 -> vec3) (w : trajectory) : trajectory :=
  map (fun s => W (f (pos s)) (f (vel s))) w.

(** Modelled from the spec: [align_circulation_with_z] is defined in
    gary/dynamics/core.py, which is not among the sources.  Section 4.2:
    unchanged for an orbit that circulates about z or is a box; for one
    circulating about x the axes are permuted (x,y,z) -> (y,z,x) in
    position and velocity, and the symmetric way for y. *)
Definition align_circulation_with_z (w : trajectory) (c : circulation)
    : trajectory :=
  if (cz c =? 1)%nat || (flag_sum c =? 0)%nat then w
  else if (cx c =? 1)%nat then relabel x_to_z w
  else if (cy c =? 1)%nat then relabel y_to_z w
  else w.

(** Modelled from the spec: over a batch each instance is aligned with its
    own classification. *)
Definition align_circulation_with_z_many (ws : batch) (cs : list circulation)
    : batch :=
  map (fun wc => align_circulation_with_z (fst wc) (snd wc)) (combine ws cs).

(** A strict sign-consistency test without tolerance: every value of the
    series is positive, or every value is negative. *)
Definition single_sign (series : list R) : bool :=
  forallb (fun v => if Rlt_dec 0 v then true else false) series
  || forallb (fun v => if Rlt_dec v 0 then true else false) series.

(** Modelled from the spec: step 2 of [classify_orbit], the momentum
    component about an axis keeps a single sign for the entire duration:
    its values are all positive or all negative. *)
Definition keeps_sign (series : list R) : Prop :=
  Forall (fun v => 0 < v) series \/ Forall (fun v => v < 0) series.

Section Classification.

(** The sign-persistence test of step 2, which the specification leaves
    open (threshold and tolerance are given as examples only), and the
    least number of samples on which it can be assessed. *)
Variable persistent : list R -> bool.
Variable min_samples : nat.

Definition circulates (L : list vec3) (k : axis) : bool :=
  persistent (map (component k) L).

(** Modelled from the spec: [classify_orbit] is defined in
    gary/dynamics/core.py, which is not among the sources.  Section 4.2,
    steps 1 to 4, and section 7: too few samples is an
    InsufficientDataError; the flag of an axis is set when that axis alone
    circulates; no axis, or the anomaly of several, is reported as a box. *)
Definition classify_orbit (w : trajectory) : result circulation :=
  if (length w <? min_samples)%nat then Raise InsufficientDataError
  else
    let L := angular_momentum w in
    match circulates L AxisX, circulates L AxisY, circulates L AxisZ with
    | true, false, false => Ok (Circ 1 0 0)
    | false, true, false => Ok (Circ 0 1 0)
    | false, false, true => Ok (Circ 0 0 1)
    | _, _, _ => Ok box
    end.

(** Modelled from the spec: step 5, one flag vector per instance. *)
Fixpoint classify_orbit_many (ws : batch) : result (list circulation) :=
  match ws with
  | [] => Ok []
  | w :: rest =>
      c <- classify_orbit w ;;
      cs <- classify_orbit_many rest ;;
      Ok (c :: cs)
  end.

End Classification.

(** Two short trajectories: a quarter turn about the z axis and a quarter
    turn about the x axis. *)
Definition z_loop : trajectory :=
  [W (V3 1 0 0) (V3 0 1 0); W (V3 0 1 0) (V3 (-1) 0 0)].
Definition x_loop : trajectory :=
  [W (V3 0 1 0) (V3 0 0 1); W (V3 0 0 1) (V3 0 (-1) 0)].

End Dynamics.

(** ** gary/dynamics/tests/test_core.py: the orbits of known family *)

Module KnownOrbit.
Import Numpy.

Section MakeKnownOrbit.

(** [potential.value] at a point and [potential.integrate_orbit]: the
    potential and its integrator are not among the sources. *)
Variable potential_value : R -> R -> R -> R.
Variable orbit : Type.
Variable integrate_orbit : list npfloat -> R -> Z -> orbit.

Definition E : R := -0.337.

(** [vy = np.sqrt(2*(E - potential.value([x,y,0.])))[0]] with [y = 0.] *)
Definition vy (x : R) : npfloat :=
  np_sqrt (2 * (E - potential_value x 0 0)).

(** [w = [x,y,0.,vx,vy,0.]] *)
Definition w0 (x vx : R) : list npfloat :=
  [Fin x; Fin 0; Fin 0; Fin vx; vy x; Fin 0].

(** The figure that the function also saves does not change what it
    returns. *)
Definition make_known_orbit (x vx : R) : orbit :=
  integrate_orbit (w0 x vx) 0.05 10000%Z.

End MakeKnownOrbit.
End KnownOrbit.

(** * Properties *)

(** ** numpy floats and real matrices *)

Section NumpyFacts.
Import Numpy.

Lemma is_zero_true (x : R) : is_zero x = true <-> x = 0.
Proof.
  unfold is_zero. destruct (Req_dec_T x 0); split; intro H;
    try reflexivity; try assumption; try discriminate; contradiction.
Qed.

Lemma is_zero_false (x : R) : is_zero x = false <-> x <> 0.
Proof.
  unfold is_zero. destruct (Req_dec_T x 0); split; intro H;
    try reflexivity; try assumption; try discriminate; contradiction.
Qed.

Lemma is_zero_0 : is_zero 0 = true.
Proof. apply is_zero_true. reflexivity. Qed.

Lemma np_div_fin (a b : R) : b <> 0 -> np_div a b = Fin (a / b).
Proof.
  intro Hb. unfold np_div. apply is_zero_false in Hb. rewrite Hb. reflexivity.
Qed.

Lemma np_div_0_0 : np_div 0 0 = NaN.
Proof. unfold np_div. rewrite is_zero_0. reflexivity. Qed.

Lemma fmul_nan_l (a : npfloat) : fmul NaN a = NaN.
Proof. destruct a; reflexivity. Qed.

Lemma fadd_nan_l (a : npfloat) : fadd NaN a = NaN.
Proof. destruct a; reflexivity. Qed.

Lemma dot_nan (v : vec2 npfloat) : dot (Mat2 NaN NaN NaN NaN) v = (NaN, NaN).
Proof. destruct v as [p q]. destruct p, q; reflexivity. Qed.

Lemma linalg_inv_fin (a b c d : R) :
  a * d - b * c <> 0 ->
  linalg_inv (Mat2 (Fin a) (Fin b) (Fin c) (Fin d)) =
  Ok (Mat2 (Fin (d / (a * d - b * c))) (Fin (- b / (a * d - b * c)))
           (Fin (- c / (a * d - b * c))) (Fin (a / (a * d - b * c)))).
Proof.
  intro H. unfold linalg_inv. simpl. apply is_zero_false in H. rewrite H.
  reflexivity.
Qed.

Lemma linalg_inv_singular (a b c d : R) :
  a * d - b * c = 0 ->
  linalg_inv (Mat2 (Fin a) (Fin b) (Fin c) (Fin d)) = Raise LinAlgError.
Proof.
  intro H. unfold linalg_inv. simpl. apply is_zero_true in H. rewrite H.
  reflexivity.
Qed.

Lemma linalg_inv_raise (M : mat2 npfloat) (e : exn) :
  linalg_inv M = Raise e -> e = LinAlgError.
Proof.
  unfold linalg_inv.
  destruct (m11 M), (m12 M), (m21 M), (m22 M); try discriminate.
  destruct (is_zero _); [| discriminate]. intro H. injection H as <-.
  reflexivity.
Qed.

End NumpyFacts.

Section RealMatrices.
Import Numpy ProperMotion.

(** [rinverse] is the two-sided inverse wherever the determinant is not
    zero. *)
Lemma rinverse_left (M : mat2 R) (v : R * R) :
  rdet M <> 0 -> rmatvec (rinverse M) (rmatvec M v) = v.
Proof.
  destruct M as [a b c d], v as [p q]. unfold rinverse, rmatvec, rdet.
  cbn [m11 m12 m21 m22 fst snd]. intro H. f_equal; field; exact H.
Qed.

Lemma rinverse_right (M : mat2 R) (v : R * R) :
  rdet M <> 0 -> rmatvec M (rmatvec (rinverse M) v) = v.
Proof.
  destruct M as [a b c d], v as [p q]. unfold rinverse, rmatvec, rdet.
  cbn [m11 m12 m21 m22 fst snd]. intro H. f_equal; field; exact H.
Qed.

End RealMatrices.

(** ** The proper-motion rotation *)

Section ProperMotionFacts.
Import Numpy Units ProperMotion.

Variables ag dg : R.

Local Abbreviation C1 := (C1 ag dg).
Local Abbreviation C2 := (C2 ag dg).
Local Abbreviation cosb_at := (cosb_at ag dg).
Local Abbreviation rotation := (rotation ag dg).
Local Abbreviation pm_gal_to_icrs := (pm_gal_to_icrs ag dg).
Local Abbreviation pm_icrs_to_gal := (pm_icrs_to_gal ag dg).
Local Abbreviation spec_R := (spec_R ag dg).

Lemma cosb_sqr (i : SkyCoord) : cosb_at i * cosb_at i = C1 i ^ 2 + C2 i ^ 2.
Proof.
  unfold ProperMotion.cosb_at. apply sqrt_sqrt.
  assert (0 <= C1 i ^ 2) by (rewrite <- Rsqr_pow2; apply Rle_0_sqr).
  assert (0 <= C2 i ^ 2) by (rewrite <- Rsqr_pow2; apply Rle_0_sqr).
  lra.
Qed.

Lemma cosb_nonneg (i : SkyCoord) : 0 <= cosb_at i.
Proof. apply sqrt_pos. Qed.

(** [cosb] vanishes exactly where both matrix elements do. *)
Lemma cosb_zero_iff (i : SkyCoord) :
  cosb_at i = 0 <-> C1 i = 0 /\ C2 i = 0.
Proof.
  split.
  - intro H. pose proof (cosb_sqr i) as E. rewrite H in E.
    assert (0 <= C1 i ^ 2) by (rewrite <- Rsqr_pow2; apply Rle_0_sqr).
    assert (0 <= C2 i ^ 2) by (rewrite <- Rsqr_pow2; apply Rle_0_sqr).
    split; nra.
  - intros [H1 H2]. unfold ProperMotion.cosb_at. rewrite H1, H2.
    replace (0 ^ 2 + 0 ^ 2) with 0 by ring. apply sqrt_0.
Qed.

Lemma rotation_fin (i : SkyCoord) :
  cosb_at i <> 0 ->
  rotation i = Mat2 (Fin (C1 i / cosb_at i)) (Fin (C2 i / cosb_at i))
                    (Fin (- C1 i / cosb_at i)) (Fin (C2 i / cosb_at i)).
Proof.
  intro H. unfold ProperMotion.rotation, mat_div. simpl.
  rewrite !np_div_fin by exact H. reflexivity.
Qed.

Lemma rotation_pole (i : SkyCoord) :
  cosb_at i = 0 -> rotation i = Mat2 NaN NaN NaN NaN.
Proof.
  intro H. destruct (proj1 (cosb_zero_iff i) H) as [H1 H2].
  unfold ProperMotion.rotation, mat_div. simpl.
  fold (cosb_at i). rewrite H, H1, H2.
  replace (- 0) with 0 by ring. rewrite np_div_0_0. reflexivity.
Qed.

(** The determinant of the matrix the code builds. *)
Lemma rotation_det (i : SkyCoord) :
  cosb_at i <> 0 ->
  C1 i / cosb_at i * (C2 i / cosb_at i)
  - C2 i / cosb_at i * (- C1 i / cosb_at i)
  = 2 * C1 i * C2 i / (cosb_at i) ^ 2.
Proof. intro H. field. exact H. Qed.

Lemma spec_R_eq (i : SkyCoord) :
  cosb_at i <> 0 ->
  spec_R (ra i) (dec i) =
  Mat2 (C1 i / cosb_at i) (C2 i / cosb_at i)
       (- C1 i / cosb_at i) (C2 i / cosb_at i).
Proof.
  intro H. unfold ProperMotion.spec_R.
  fold (C1 i). fold (C2 i). fold (cosb_at i).
  f_equal; field; exact H.
Qed.

Lemma spec_R_det (i : SkyCoord) :
  cosb_at i <> 0 ->
  rdet (spec_R (ra i) (dec i)) = 2 * C1 i * C2 i / (cosb_at i) ^ 2.
Proof.
  intro H. rewrite spec_R_eq by exact H. unfold rdet. simpl. field. exact H.
Qed.

(** What the two calls compute where the matrix has finite entries. *)
Lemma pm_icrs_to_gal_fin (i : SkyCoord) (a d : R) (ua ud : unit) (f : bool) :
  cosb_at i <> 0 -> convertible ud ua = true ->
  pm_icrs_to_gal i (Q (Fin a) ua, Q (Fin d) ud) f =
  Ok (Q2 (Fin (C1 i / cosb_at i * (if f then a else a * cos (dec i))
               + C2 i / cosb_at i * (d * (scale ud / scale ua))),
          Fin (- C1 i / cosb_at i * (if f then a else a * cos (dec i))
               + C2 i / cosb_at i * (d * (scale ud / scale ua)))) ua).
Proof.
  intros Hc Hu. unfold ProperMotion.pm_icrs_to_gal.
  fold (rotation i). rewrite rotation_fin by exact Hc.
  destruct f; unfold to, qscale; cbn [unit_of value]; rewrite Hu;
    reflexivity.
Qed.

Lemma pm_gal_to_icrs_fin (i : SkyCoord) (a d : R) (ua ud : unit) (f : bool) :
  C1 i <> 0 -> C2 i <> 0 -> convertible ud ua = true ->
  pm_gal_to_icrs i (Q (Fin a) ua, Q (Fin d) ud) f =
  Ok (Q2 (Fin (cosb_at i * ((if f then a else a * cos (gal_b i))
                            - d * (scale ud / scale ua)) / (2 * C1 i)),
          Fin (cosb_at i * ((if f then a else a * cos (gal_b i))
                            + d * (scale ud / scale ua)) / (2 * C2 i))) ua).
Proof.
  intros H1 H2 Hu.
  assert (Hc : cosb_at i <> 0).
  { intro E. apply cosb_zero_iff in E. tauto. }
  assert (Hd : C1 i / cosb_at i * (C2 i / cosb_at i)
               - C2 i / cosb_at i * (- C1 i / cosb_at i) <> 0).
  { rewrite rotation_det by exact Hc. intro E.
    apply (f_equal (fun t => t * cosb_at i ^ 2)) in E.
    field_simplify in E; [| exact Hc].
    assert (C1 i * C2 i <> 0) by (apply Rmult_integral_contrapositive; tauto).
    lra. }
  assert (Hp : C1 i * C2 i - C2 i * - C1 i <> 0).
  { assert (C1 i * C2 i <> 0) by (apply Rmult_integral_contrapositive; tauto).
    lra. }
  unfold ProperMotion.pm_gal_to_icrs.
  fold (rotation i). rewrite rotation_fin by exact Hc.
  rewrite linalg_inv_fin by exact Hd.
  destruct f; unfold to, qscale; cbn [unit_of value]; rewrite Hu;
    unfold dot; cbn [bind fmul fadd fst snd m11 m12 m21 m22 value];
    generalize (scale ud / scale ua); intro k;
    do 2 f_equal; f_equal; f_equal; field; repeat split; assumption.
Qed.

(** C1, as the code has it: away from the Galactic poles
    [pm_icrs_to_gal] returns the matrix R = (1/cosb) [[C1, C2], [-C1, C2]]
    of the specification applied to the cos-scaled input vector, and
    [pm_gal_to_icrs] returns the inverse of R applied to it at the
    positions where R has an inverse. *)
Theorem pm_conversion_follows_formula
    (i : SkyCoord) (a d : R) (ua ud : unit) (f : bool) :
  cosb_at i <> 0 -> convertible ud ua = true ->
  pm_icrs_to_gal i (Q (Fin a) ua, Q (Fin d) ud) f =
    Ok (Q2 (lift (rmatvec (spec_R (ra i) (dec i))
                          (spec_scaled f (dec i) a d ua ud))) ua)
  /\ (rdet (spec_R (ra i) (dec i)) <> 0 ->
      pm_gal_to_icrs i (Q (Fin a) ua, Q (Fin d) ud) f =
        Ok (Q2 (lift (rmatvec (rinverse (spec_R (ra i) (dec i)))
                              (spec_scaled f (gal_b i) a d ua ud))) ua)).
Proof.
  intros Hc Hu. split.
  - rewrite pm_icrs_to_gal_fin by assumption.
    rewrite spec_R_eq by exact Hc.
    unfold lift, rmatvec, spec_scaled. cbn [fst snd m11 m12 m21 m22].
    destruct f; reflexivity.
  - intro Hd. rewrite spec_R_det in Hd by exact Hc.
    assert (H1 : C1 i <> 0) by (intro E; apply Hd; rewrite E; field; exact Hc).
    assert (H2 : C2 i <> 0) by (intro E; apply Hd; rewrite E; field; exact Hc).
    rewrite pm_gal_to_icrs_fin by assumption.
    rewrite spec_R_eq by exact Hc.
    unfold lift, rmatvec, rinverse, rdet, spec_scaled.
    cbn [fst snd m11 m12 m21 m22].
    generalize (scale ud / scale ua); intro k.
    assert (Hp : C1 i * C2 i - C2 i * - C1 i <> 0).
    { assert (C1 i * C2 i <> 0)
        by (apply Rmult_integral_contrapositive; tauto).
      lra. }
    destruct f; do 2 f_equal; f_equal; f_equal; field;
      repeat split; assumption.
Qed.

Lemma convertible_refl (u : unit) : convertible u u = true.
Proof.
  unfold convertible. destruct (list_eq_dec Z.eq_dec (powers u) (powers u));
    [reflexivity | contradiction].
Qed.

Lemma convertible_sym (u v : unit) : convertible u v = convertible v u.
Proof.
  unfold convertible.
  destruct (list_eq_dec Z.eq_dec (powers u) (powers v)),
           (list_eq_dec Z.eq_dec (powers v) (powers u));
    try reflexivity; exfalso; auto.
Qed.

(** The value of the round trip that starts with [pm_icrs_to_gal]. *)
Lemma pm_there_and_back
    (i : SkyCoord) (a d : R) (ua ud : unit) (f : bool) :
  C1 i <> 0 -> C2 i <> 0 -> scale ua <> 0 -> convertible ud ua = true ->
  (w <- pm_icrs_to_gal i (Q (Fin a) ua, Q (Fin d) ud) f ;;
   pm_gal_to_icrs i (unpack w) true)
  = Ok (Q2 (lift (spec_scaled f (dec i) a d ua ud)) ua).
Proof.
  intros H1 H2 Hs Hu.
  assert (Hc : cosb_at i <> 0).
  { intro E. apply cosb_zero_iff in E. tauto. }
  rewrite pm_icrs_to_gal_fin by assumption.
  unfold unpack. cbn [bind values unit2 fst snd].
  rewrite pm_gal_to_icrs_fin by (try assumption; apply convertible_refl).
  unfold lift, spec_scaled. cbn [fst snd].
  destruct f; do 2 f_equal; f_equal; f_equal; field;
    repeat split; assumption.
Qed.

(** C2, as the code has it: where the matrix is invertible,
    [pm_icrs_to_gal] followed by [pm_gal_to_icrs] with the flag set, and
    the two calls in the other order, give back the proper-motion vector
    that went in, in the cos-scaled convention: the original vector itself
    when the first call was given a scaled vector, and the vector with its
    first component multiplied by the cosine of the latitude when it was
    not.  In real arithmetic the round trip is exact. *)
Theorem pm_round_trip (i : SkyCoord) (a d : R) (ua ud : unit) (f : bool) :
  C1 i <> 0 -> C2 i <> 0 -> scale ua <> 0 -> convertible ud ua = true ->
  let mu := (Q (Fin a) ua, Q (Fin d) ud) in
  (exists back,
      (w <- pm_icrs_to_gal i mu f ;; pm_gal_to_icrs i (unpack w) true)
      = Ok back
      /\ same_vector back (scaled_mu f (dec i) mu))
  /\ (exists back,
      (w <- pm_gal_to_icrs i mu f ;; pm_icrs_to_gal i (unpack w) true)
      = Ok back
      /\ same_vector back (scaled_mu f (gal_b i) mu)).
Proof.
  intros H1 H2 Hs Hu mu.
  assert (Hc : cosb_at i <> 0).
  { intro E. apply cosb_zero_iff in E. tauto. }
  split.
  - exists (Q2 (lift (spec_scaled f (dec i) a d ua ud)) ua). split.
    + unfold mu. rewrite pm_icrs_to_gal_fin by assumption.
      unfold unpack. cbn [bind values unit2 fst snd].
      rewrite pm_gal_to_icrs_fin by (try assumption; apply convertible_refl).
      unfold lift, spec_scaled. cbn [fst snd].
      destruct f; do 2 f_equal; f_equal; f_equal; field;
        repeat split; assumption.
    + unfold same_vector, same_amount, scaled_mu, mu, unpack, lift,
        spec_scaled, qscale.
      destruct f; cbn [fst snd values unit2 value unit_of fmul];
        rewrite convertible_refl, (convertible_sym ua ud), Hu;
        repeat split; f_equal; field; exact Hs.
  - exists (Q2 (lift (spec_scaled f (gal_b i) a d ua ud)) ua). split.
    + unfold mu. rewrite pm_gal_to_icrs_fin by assumption.
      unfold unpack. cbn [bind values unit2 fst snd].
      rewrite pm_icrs_to_gal_fin by (try assumption; apply convertible_refl).
      unfold lift, spec_scaled. cbn [fst snd].
      destruct f; do 2 f_equal; f_equal; f_equal; field;
        repeat split; assumption.
    + unfold same_vector, same_amount, scaled_mu, mu, unpack, lift,
        spec_scaled, qscale.
      destruct f; cbn [fst snd values unit2 value unit_of fmul];
        rewrite convertible_refl, (convertible_sym ua ud), Hu;
        repeat split; f_equal; field; exact Hs.
Qed.

Lemma pm_icrs_to_gal_pole
    (i : SkyCoord) (mu : Quantity * Quantity) (f : bool) :
  cosb_at i = 0 -> convertible (unit_of (snd mu)) (unit_of (fst mu)) = true ->
  pm_icrs_to_gal i mu f = Ok (Q2 (NaN, NaN) (unit_of (fst mu))).
Proof.
  intros Hc Hu. destruct mu as [m1 m2]. cbn [fst snd] in *.
  unfold ProperMotion.pm_icrs_to_gal.
  fold (rotation i). rewrite rotation_pole by exact Hc.
  destruct f; unfold to, qscale; cbn [unit_of value]; rewrite Hu;
    cbn [bind]; rewrite dot_nan; reflexivity.
Qed.

Lemma pm_gal_to_icrs_pole
    (i : SkyCoord) (mu : Quantity * Quantity) (f : bool) :
  cosb_at i = 0 -> convertible (unit_of (snd mu)) (unit_of (fst mu)) = true ->
  pm_gal_to_icrs i mu f = Ok (Q2 (NaN, NaN) (unit_of (fst mu))).
Proof.
  intros Hc Hu. destruct mu as [m1 m2]. cbn [fst snd] in *.
  unfold ProperMotion.pm_gal_to_icrs.
  fold (rotation i). rewrite rotation_pole by exact Hc.
  destruct f; unfold to, qscale; cbn [unit_of value]; rewrite Hu;
    cbn [bind linalg_inv m11 m12 m21 m22]; rewrite dot_nan; reflexivity.
Qed.

Lemma pm_gal_to_icrs_singular
    (i : SkyCoord) (mu : Quantity * Quantity) (f : bool) :
  cosb_at i <> 0 -> C1 i * C2 i = 0 ->
  convertible (unit_of (snd mu)) (unit_of (fst mu)) = true ->
  pm_gal_to_icrs i mu f = Raise LinAlgError.
Proof.
  intros Hc Hp Hu. destruct mu as [m1 m2]. cbn [fst snd] in *.
  unfold ProperMotion.pm_gal_to_icrs, to.
  replace (unit_of (if f then m1 else qscale m1 (cos (gal_b i))))
    with (unit_of m1) by (destruct f; reflexivity).
  rewrite Hu. cbn [bind].
  fold (rotation i). rewrite rotation_fin by exact Hc.
  rewrite linalg_inv_singular; [reflexivity |].
  rewrite rotation_det by exact Hc.
  replace (2 * C1 i * C2 i) with (2 * (C1 i * C2 i)) by ring.
  rewrite Hp. field. exact Hc.
Qed.

(** C3, as the code has it: at a Galactic pole ([cosb = 0]) neither
    function raises; every entry of the matrix is [0/0 = nan] and, the
    units being convertible, both return the vector of two [nan] in the
    unit of the first component. *)
Theorem pm_at_pole_returns_nan
    (i : SkyCoord) (mu : Quantity * Quantity) (f : bool) :
  cosb_at i = 0 -> convertible (unit_of (snd mu)) (unit_of (fst mu)) = true ->
  pm_icrs_to_gal i mu f = Ok (Q2 (NaN, NaN) (unit_of (fst mu)))
  /\ pm_gal_to_icrs i mu f = Ok (Q2 (NaN, NaN) (unit_of (fst mu))).
Proof.
  intros Hc Hu. split.
  - apply pm_icrs_to_gal_pole; assumption.
  - apply pm_gal_to_icrs_pole; assumption.
Qed.






(** C9, as the code has it: either function raises the unit error exactly
    when the unit of the second component is not convertible to the unit
    of the first; with convertible units [pm_icrs_to_gal] returns a vector
    in the unit of the first component, and so does [pm_gal_to_icrs]
    wherever the matrix it inverts has no zero element ([C1] and [C2] both
    non-zero). *)
Theorem pm_unit_errors
    (i : SkyCoord) (mu : Quantity * Quantity) (f : bool) :
  let ok := convertible (unit_of (snd mu)) (unit_of (fst mu)) in
  (pm_icrs_to_gal i mu f = Raise UnitConversionError <-> ok = false)
  /\ (pm_gal_to_icrs i mu f = Raise UnitConversionError <-> ok = false)
  /\ (ok = true ->
      exists w, pm_icrs_to_gal i mu f = Ok w /\ unit2 w = unit_of (fst mu))
  /\ (ok = true -> C1 i <> 0 -> C2 i <> 0 ->
      exists w, pm_gal_to_icrs i mu f = Ok w /\ unit2 w = unit_of (fst mu)).
Proof.
  destruct mu as [m1 m2]. cbn [fst snd].
  unfold ProperMotion.pm_icrs_to_gal, ProperMotion.pm_gal_to_icrs, to.
  assert (Eu : unit_of (if f then m1 else qscale m1 (cos (dec i)))
               = unit_of m1) by (destruct f; reflexivity).
  assert (Eb : unit_of (if f then m1 else qscale m1 (cos (gal_b i)))
               = unit_of m1) by (destruct f; reflexivity).
  rewrite Eu, Eb.
  destruct (convertible (unit_of m2) (unit_of m1)); cbn [bind].
  - split; [| split; [| split]].
    + split; discriminate.
    + split; [| discriminate].
      destruct (linalg_inv (ProperMotion.rotation ag dg i)) eqn:E;
        cbn [bind]; [discriminate |].
      apply linalg_inv_raise in E. subst e. discriminate.
    + intros _. eexists. split; reflexivity.
    + intros _ H1 H2.
      assert (Hc : cosb_at i <> 0).
      { intro E. apply cosb_zero_iff in E. tauto. }
      fold (rotation i). rewrite rotation_fin by exact Hc.
      rewrite linalg_inv_fin.
      * cbn [bind]. eexists. split; reflexivity.
      * rewrite rotation_det by exact Hc. intro E.
        apply (f_equal (fun t => t * cosb_at i ^ 2)) in E.
        field_simplify in E; [| exact Hc].
        assert (C1 i * C2 i <> 0)
          by (apply Rmult_integral_contrapositive; tauto).
        lra.
  - split; [| split; [| split]]; try (split; reflexivity);
      intro; discriminate.
Qed.

(** C10: the determinant of R is [2 C1 C2 / cosb^2]; at a position off the
    poles where [C1] or [C2] vanishes it is zero, [pm_gal_to_icrs] raises
    numpy's LinAlgError in the inversion, and [pm_icrs_to_gal] returns the
    same vector for two different inputs.  Such positions exist: on the
    meridian of the North Galactic Pole ([ra = ag]), a quarter turn below
    it, [C2 = 0] and [cosb = 1]. *)
Theorem pm_singular_off_the_poles :
  (exists i, ra i = ag /\ C2 i = 0 /\ cosb_at i = 1)
  /\ (forall i, cosb_at i <> 0 ->
      rdet (spec_R (ra i) (dec i)) = 2 * C1 i * C2 i / cosb_at i ^ 2)
  /\ (forall i (mu : Quantity * Quantity) (f : bool),
      cosb_at i <> 0 -> C1 i = 0 \/ C2 i = 0 ->
      convertible (unit_of (snd mu)) (unit_of (fst mu)) = true ->
      rdet (spec_R (ra i) (dec i)) = 0
      /\ pm_gal_to_icrs i mu f = Raise LinAlgError
      /\ exists a1 d1 a2 d2,
           (a1, d1) <> (a2, d2)
           /\ pm_icrs_to_gal i (Q (Fin a1) (unit_of (fst mu)),
                                Q (Fin d1) (unit_of (fst mu))) true
              = pm_icrs_to_gal i (Q (Fin a2) (unit_of (fst mu)),
                                  Q (Fin d2) (unit_of (fst mu))) true
           /\ returns
                (pm_icrs_to_gal i (Q (Fin a1) (unit_of (fst mu)),
                                   Q (Fin d1) (unit_of (fst mu))) true)).
Proof.
  split; [| split].
  - exists (Sky ag (dg - PI / 2) 0 0).
    assert (E1 : C1 (Sky ag (dg - PI / 2) 0 0) = 1).
    { unfold ProperMotion.C1. cbn [ra dec].
      replace (ag - ag) with 0 by ring. rewrite cos_0.
      replace (dg - PI / 2) with (- (PI / 2 - dg)) by ring.
      rewrite cos_neg, sin_neg, cos_shift, sin_shift.
      pose proof (sin2_cos2 dg) as E. unfold Rsqr in E. lra. }
    assert (E2 : C2 (Sky ag (dg - PI / 2) 0 0) = 0).
    { unfold ProperMotion.C2. cbn [ra].
      replace (ag - ag) with 0 by ring. rewrite sin_0. ring. }
    split; [reflexivity | split; [exact E2 |]].
    unfold ProperMotion.cosb_at. rewrite E1, E2.
    replace (1 ^ 2 + 0 ^ 2) with 1 by ring. apply sqrt_1.
  - intros i Hc. apply spec_R_det. exact Hc.
  - intros i [m1 m2] f Hc Hz Hu. cbn [fst snd] in *.
    assert (Hp : C1 i * C2 i = 0) by (destruct Hz as [E | E]; rewrite E; ring).
    split; [| split].
    + rewrite spec_R_det by exact Hc.
      replace (2 * C1 i * C2 i) with (2 * (C1 i * C2 i)) by ring.
      rewrite Hp. field. exact Hc.
    + apply pm_gal_to_icrs_singular; assumption.
    + destruct Hz as [E | E].
      * exists 0, 0, 1, 0. split; [intro X; injection X; lra |].
        rewrite !pm_icrs_to_gal_fin
          by (try assumption; apply convertible_refl).
        rewrite E. split; [do 2 f_equal; f_equal; f_equal; lra |].
        eexists; reflexivity.
      * exists 0, 0, 0, 1. split; [intro X; injection X; lra |].
        rewrite !pm_icrs_to_gal_fin
          by (try assumption; apply convertible_refl).
        rewrite E. split; [do 2 f_equal; f_equal; f_equal; lra |].
        eexists; reflexivity.
Qed.

End ProperMotionFacts.

(** ** The rotation at the J2000 pole *)

Section AtJ2000.
Import Numpy Units ProperMotion.

Local Abbreviation ag := ngp_ra_J2000.
Local Abbreviation dg := ngp_dec_J2000.

Lemma ngp_dec_range : 0 < dg < PI / 2.
Proof. unfold ngp_dec_J2000. pose proof PI_RGT_0. lra. Qed.

Lemma sin_ngp_dec_pos : 0 < sin dg.
Proof.
  pose proof ngp_dec_range. pose proof PI_RGT_0. apply sin_gt_0; lra.
Qed.

Lemma cos_ngp_dec_pos : 0 < cos dg.
Proof. pose proof ngp_dec_range. apply cos_gt_0; lra. Qed.

Lemma C1_node : C1 ag dg galactic_node = sin dg.
Proof.
  unfold C1, galactic_node. cbn [ra dec].
  rewrite cos_0, sin_0. ring.
Qed.

Lemma C2_node : C2 ag dg galactic_node = cos dg.
Proof.
  unfold C2, galactic_node. cbn [ra].
  replace (ag + PI / 2 - ag) with (PI / 2) by ring.
  rewrite sin_PI2. ring.
Qed.

Lemma cosb_node : cosb_at ag dg galactic_node = 1.
Proof.
  unfold cosb_at. rewrite C1_node, C2_node.
  replace (sin dg ^ 2 + cos dg ^ 2) with 1.
  - apply sqrt_1.
  - pose proof (sin2_cos2 dg) as E. unfold Rsqr in E. lra.
Qed.

Lemma C1_pole : C1 ag dg north_galactic_pole = 0.
Proof.
  unfold C1, north_galactic_pole. cbn [ra dec].
  replace (ag - ag) with 0 by ring. rewrite cos_0. ring.
Qed.

Lemma C2_pole : C2 ag dg north_galactic_pole = 0.
Proof.
  unfold C2, north_galactic_pole. cbn [ra].
  replace (ag - ag) with 0 by ring. rewrite sin_0. ring.
Qed.

Lemma cosb_pole : cosb_at ag dg north_galactic_pole = 0.
Proof. apply cosb_zero_iff. split; [apply C1_pole | apply C2_pole]. Qed.

Lemma C1_equator : C1 ag dg equator_below_pole = sin dg.
Proof.
  unfold C1, equator_below_pole. cbn [ra dec].
  rewrite cos_0, sin_0. ring.
Qed.

Lemma C2_equator : C2 ag dg equator_below_pole = 0.
Proof.
  unfold C2, equator_below_pole. cbn [ra].
  replace (ag - ag) with 0 by ring. rewrite sin_0. ring.
Qed.

Lemma cosb_equator : cosb_at ag dg equator_below_pole <> 0.
Proof.
  intro E. apply cosb_zero_iff in E. destruct E as [E _].
  rewrite C1_equator in E. pose proof sin_ngp_dec_pos. lra.
Qed.

Lemma mas_scale_nonzero : scale mas_per_yr <> 0.
Proof. cbn [scale mas_per_yr]. pose proof PI_RGT_0. lra. Qed.

Lemma node_det_nonzero :
  rdet (spec_R ag dg (ra galactic_node) (dec galactic_node)) <> 0.
Proof.
  assert (Hc : cosb_at ag dg galactic_node <> 0)
    by (rewrite cosb_node; lra).
  rewrite spec_R_det by exact Hc.
  rewrite cosb_node, C1_node, C2_node.
  pose proof sin_ngp_dec_pos. pose proof cos_ngp_dec_pos.
  replace (2 * sin dg * cos dg / 1 ^ 2) with (2 * (sin dg * cos dg))
    by field.
  assert (0 < sin dg * cos dg) by (apply Rmult_lt_0_compat; assumption).
  lra.
Qed.

Lemma pm_conversion_follows_formula_witness :
  cosb_at ag dg galactic_node <> 0
  /\ convertible deg_per_yr mas_per_yr = true
  /\ rdet (spec_R ag dg (ra galactic_node) (dec galactic_node)) <> 0
  /\ pm_icrs_to_gal ag dg galactic_node
       (Q (Fin 1) mas_per_yr, Q (Fin 2) deg_per_yr) false
     = Ok (Q2 (lift (rmatvec
                       (spec_R ag dg (ra galactic_node) (dec galactic_node))
                       (spec_scaled false (dec galactic_node) 1 2
                                    mas_per_yr deg_per_yr)))
              mas_per_yr)
  /\ pm_gal_to_icrs ag dg galactic_node
       (Q (Fin 1) mas_per_yr, Q (Fin 2) deg_per_yr) false
     = Ok (Q2 (lift (rmatvec
                       (rinverse
                          (spec_R ag dg (ra galactic_node)
                                  (dec galactic_node)))
                       (spec_scaled false (gal_b galactic_node) 1 2
                                    mas_per_yr deg_per_yr)))
              mas_per_yr).
Proof.
  assert (Hc : cosb_at ag dg galactic_node <> 0)
    by (rewrite cosb_node; lra).
  assert (Hu : convertible deg_per_yr mas_per_yr = true) by reflexivity.
  destruct (pm_conversion_follows_formula ag dg galactic_node 1 2
              mas_per_yr deg_per_yr false Hc Hu) as [E1 E2].
  exact (conj Hc (conj Hu (conj node_det_nonzero
           (conj E1 (E2 node_det_nonzero))))).
Defined.

Lemma node_C1_nonzero : C1 ag dg galactic_node <> 0.
Proof. rewrite C1_node. pose proof sin_ngp_dec_pos. lra. Qed.

Lemma node_C2_nonzero : C2 ag dg galactic_node <> 0.
Proof. rewrite C2_node. pose proof cos_ngp_dec_pos. lra. Qed.

Lemma off_equator_C1 : C1 ag dg off_equator = sin dg / 2.
Proof.
  unfold C1, off_equator. cbn [ra dec].
  replace (ag + PI / 2 - ag) with (PI / 2) by ring.
  rewrite cos_PI2, cos_PI3. field.
Qed.

Lemma off_equator_C2 : C2 ag dg off_equator = cos dg.
Proof.
  unfold C2, off_equator. cbn [ra].
  replace (ag + PI / 2 - ag) with (PI / 2) by ring.
  rewrite sin_PI2. ring.
Qed.

Lemma off_equator_C1_nonzero : C1 ag dg off_equator <> 0.
Proof. rewrite off_equator_C1. pose proof sin_ngp_dec_pos. lra. Qed.

Lemma off_equator_C2_nonzero : C2 ag dg off_equator <> 0.
Proof. rewrite off_equator_C2. pose proof cos_ngp_dec_pos. lra. Qed.


Lemma pm_round_trip_witness :
  C1 ag dg off_equator <> 0 /\ C2 ag dg off_equator <> 0
  /\ scale mas_per_yr <> 0 /\ convertible deg_per_yr mas_per_yr = true
  /\ (exists back,
        (w <- pm_icrs_to_gal ag dg off_equator
                (Q (Fin 1) mas_per_yr, Q (Fin 2) deg_per_yr) false ;;
         pm_gal_to_icrs ag dg off_equator (unpack w) true) = Ok back
        /\ same_vector back
             (qscale (Q (Fin 1) mas_per_yr) (cos (dec off_equator)),
              Q (Fin 2) deg_per_yr))
  /\ (exists back,
        (w <- pm_gal_to_icrs ag dg off_equator
                (Q (Fin 1) mas_per_yr, Q (Fin 2) deg_per_yr) true ;;
         pm_icrs_to_gal ag dg off_equator (unpack w) true) = Ok back
        /\ same_vector back (Q (Fin 1) mas_per_yr, Q (Fin 2) deg_per_yr)).
Proof.
  assert (Hu : convertible deg_per_yr mas_per_yr = true) by reflexivity.
  destruct (pm_round_trip ag dg off_equator 1 2 mas_per_yr deg_per_yr false
              off_equator_C1_nonzero off_equator_C2_nonzero
              mas_scale_nonzero Hu)
    as [E1 _].
  destruct (pm_round_trip ag dg off_equator 1 2 mas_per_yr deg_per_yr true
              off_equator_C1_nonzero off_equator_C2_nonzero
              mas_scale_nonzero Hu)
    as [_ E2].
  exact (conj off_equator_C1_nonzero (conj off_equator_C2_nonzero
           (conj mas_scale_nonzero (conj Hu (conj E1 E2))))).
Defined.

(** With the first call given an unscaled vector the round trip does not
    give the original vector back: at declination 60 degrees the
    right-ascension component comes back halved. *)
Lemma pm_round_trip_scales_unscaled_input :
  C1 ag dg off_equator <> 0 /\ C2 ag dg off_equator <> 0
  /\ ~ (exists back,
          (w <- pm_icrs_to_gal ag dg off_equator
                  (Q (Fin 1) mas_per_yr, Q (Fin 0) mas_per_yr) false ;;
           pm_gal_to_icrs ag dg off_equator (unpack w) true) = Ok back
          /\ same_vector back
               (Q (Fin 1) mas_per_yr, Q (Fin 0) mas_per_yr)).
Proof.
  split; [apply off_equator_C1_nonzero |].
  split; [apply off_equator_C2_nonzero |].
  intros [back [E [[_ S] _]]].
  rewrite pm_there_and_back in E
    by (first [ apply off_equator_C1_nonzero | apply off_equator_C2_nonzero
              | apply mas_scale_nonzero | reflexivity ]).
  injection E as <-.
  unfold unpack, lift, spec_scaled in S.
  cbn [fst snd values unit2 value unit_of fmul] in S.
  rewrite cos_PI3 in S. injection S as S.
  apply mas_scale_nonzero. cbn [scale mas_per_yr]. lra.
Qed.

(** On the meridian of the pole, off the poles, [pm_gal_to_icrs] returns
    nothing: the matrix has no inverse there and the claim that the
    inverse applied to the vector is returned at every position off the
    poles fails. *)
Lemma pm_gal_to_icrs_no_inverse_off_the_poles :
  cosb_at ag dg equator_below_pole <> 0
  /\ convertible deg_per_yr mas_per_yr = true
  /\ pm_gal_to_icrs ag dg equator_below_pole
       (Q (Fin 1) mas_per_yr, Q (Fin 2) deg_per_yr) true
     <> Ok (Q2 (lift (rmatvec
                        (rinverse
                           (spec_R ag dg (ra equator_below_pole)
                                   (dec equator_below_pole)))
                        (spec_scaled true (gal_b equator_below_pole) 1 2
                                     mas_per_yr deg_per_yr)))
               mas_per_yr)
  /\ ~ returns (pm_gal_to_icrs ag dg equator_below_pole
                  (Q (Fin 1) mas_per_yr, Q (Fin 2) deg_per_yr) true).
Proof.
  assert (E : pm_gal_to_icrs ag dg equator_below_pole
                (Q (Fin 1) mas_per_yr, Q (Fin 2) deg_per_yr) true
              = Raise LinAlgError).
  { apply pm_gal_to_icrs_singular.
    - apply cosb_equator.
    - rewrite C2_equator. ring.
    - reflexivity. }
  split; [apply cosb_equator |]. split; [reflexivity |].
  rewrite E. split; [discriminate |]. intros [w Ew]. discriminate.
Qed.

(** At the North Galactic Pole both functions return: the claim that they
    raise there fails. *)
Lemma pm_pole_does_not_raise :
  cosb_at ag dg north_galactic_pole = 0
  /\ ~ raises (pm_icrs_to_gal ag dg north_galactic_pole
                 (Q (Fin 1) mas_per_yr, Q (Fin 1) mas_per_yr) true)
  /\ ~ raises (pm_gal_to_icrs ag dg north_galactic_pole
                 (Q (Fin 1) mas_per_yr, Q (Fin 1) mas_per_yr) true).
Proof.
  split; [apply cosb_pole |].
  split; intros [e E].
  - rewrite pm_icrs_to_gal_pole in E;
      [discriminate | apply cosb_pole | reflexivity].
  - rewrite pm_gal_to_icrs_pole in E;
      [discriminate | apply cosb_pole | reflexivity].
Qed.

Lemma pm_at_pole_returns_nan_witness :
  cosb_at ag dg north_galactic_pole = 0
  /\ convertible deg_per_yr mas_per_yr = true
  /\ pm_icrs_to_gal ag dg north_galactic_pole
       (Q (Fin 1) mas_per_yr, Q (Fin 2) deg_per_yr) false
     = Ok (Q2 (NaN, NaN) mas_per_yr)
  /\ pm_gal_to_icrs ag dg north_galactic_pole
       (Q (Fin 1) mas_per_yr, Q (Fin 2) deg_per_yr) false
     = Ok (Q2 (NaN, NaN) mas_per_yr).
Proof.
  assert (Hu : convertible deg_per_yr mas_per_yr = true) by reflexivity.
  destruct (pm_at_pole_returns_nan ag dg north_galactic_pole
              (Q (Fin 1) mas_per_yr, Q (Fin 2) deg_per_yr) false
              cosb_pole Hu) as [E1 E2].
  exact (conj cosb_pole (conj Hu (conj E1 E2))).
Defined.




(** On the meridian of the pole the units are convertible and
    [pm_gal_to_icrs] does not return: the claim that it succeeds whenever
    the units are convertible fails. *)
Lemma pm_gal_to_icrs_fails_with_convertible_units :
  ~ (convertible deg_per_yr mas_per_yr = true ->
     returns (pm_gal_to_icrs ag dg equator_below_pole
                (Q (Fin 1) mas_per_yr, Q (Fin 2) deg_per_yr) true)).
Proof.
  intro H. destruct (H eq_refl) as [w E].
  rewrite pm_gal_to_icrs_singular in E.
  - discriminate.
  - apply cosb_equator.
  - rewrite C2_equator. ring.
  - reflexivity.
Qed.

Lemma pm_unit_errors_witness :
  convertible deg_per_yr mas_per_yr = true
  /\ C1 ag dg galactic_node <> 0 /\ C2 ag dg galactic_node <> 0
  /\ (exists w,
        pm_gal_to_icrs ag dg galactic_node
          (Q (Fin 1) mas_per_yr, Q (Fin 2) deg_per_yr) false = Ok w
        /\ unit2 w = mas_per_yr)
  /\ pm_gal_to_icrs ag dg galactic_node
       (Q (Fin 1) mas_per_yr, Q (Fin 2) metre) false
     = Raise UnitConversionError.
Proof.
  assert (Hu : convertible deg_per_yr mas_per_yr = true) by reflexivity.
  destruct (pm_unit_errors ag dg galactic_node
              (Q (Fin 1) mas_per_yr, Q (Fin 2) deg_per_yr) false)
    as [_ [_ [_ E]]].
  destruct (pm_unit_errors ag dg galactic_node
              (Q (Fin 1) mas_per_yr, Q (Fin 2) metre) false)
    as [_ [[_ E'] _]].
  exact (conj Hu (conj node_C1_nonzero (conj node_C2_nonzero
           (conj (E Hu node_C1_nonzero node_C2_nonzero) (E' eq_refl))))).
Defined.

Lemma pm_singular_off_the_poles_witness :
  cosb_at ag dg equator_below_pole <> 0
  /\ C2 ag dg equator_below_pole = 0
  /\ convertible deg_per_yr mas_per_yr = true
  /\ rdet (spec_R ag dg (ra equator_below_pole) (dec equator_below_pole)) = 0
  /\ pm_gal_to_icrs ag dg equator_below_pole
       (Q (Fin 1) mas_per_yr, Q (Fin 2) deg_per_yr) true
     = Raise LinAlgError.
Proof.
  assert (Hu : convertible deg_per_yr mas_per_yr = true) by reflexivity.
  destruct (pm_singular_off_the_poles ag dg) as [_ [_ H]].
  destruct (H equator_below_pole
              (Q (Fin 1) mas_per_yr, Q (Fin 2) deg_per_yr) true
              cosb_equator (or_intror C2_equator) Hu) as [E1 [E2 _]].
  exact (conj cosb_equator (conj C2_equator (conj Hu (conj E1 E2)))).
Defined.

End AtJ2000.

(** ** The orbit analyzer *)

Section DynamicsFacts.
Import Dynamics.

Lemma cross_x_to_z (q p : vec3) :
  cross (x_to_z q) (x_to_z p) = x_to_z (cross q p).
Proof. reflexivity. Qed.

Lemma cross_y_to_z (q p : vec3) :
  cross (y_to_z q) (y_to_z p) = y_to_z (cross q p).
Proof. reflexivity. Qed.

Lemma angular_momentum_x_to_z (w : trajectory) :
  angular_momentum (relabel x_to_z w) = map x_to_z (angular_momentum w).
Proof.
  unfold angular_momentum, relabel. rewrite !map_map. reflexivity.
Qed.

Lemma angular_momentum_y_to_z (w : trajectory) :
  angular_momentum (relabel y_to_z w) = map y_to_z (angular_momentum w).
Proof.
  unfold angular_momentum, relabel. rewrite !map_map. reflexivity.
Qed.

Lemma relabel_length (f : vec3 -> vec3) (w : trajectory) :
  length (relabel f w) = length w.
Proof. unfold relabel. apply length_map. Qed.

(** C7: [angular_momentum] is the cross product of position and velocity
    at each time sample; the output has the shape of the input, 3 x T for
    one trajectory and instance by instance for a batch; and the three
    known values. *)
Theorem angular_momentum_is_cross_product :
  (forall (w : trajectory) (t : nat),
      nth_error (angular_momentum w) t
      = option_map (fun s => cross (pos s) (vel s)) (nth_error w t))
  /\ (forall w : trajectory, shape (angular_momentum w) = shape w)
  /\ (forall ws : batch,
        length (angular_momentum_many ws) = length ws
        /\ shapes (angular_momentum_many ws) = shapes ws)
  /\ angular_momentum [W (V3 1 0 0) (V3 0 0 1)] = [V3 0 (-1) 0]
  /\ angular_momentum [W (V3 1 0 0) (V3 0 1 0)] = [V3 0 0 1]
  /\ angular_momentum [W (V3 0 1 0) (V3 0 0 1)] = [V3 1 0 0].
Proof.
  split; [| split; [| split; [| split; [| split]]]].
  - intros w t. unfold angular_momentum. apply nth_error_map.
  - intro w. unfold shape, angular_momentum. rewrite length_map. reflexivity.
  - intro ws. split.
    + unfold angular_momentum_many. apply length_map.
    + unfold shapes, angular_momentum_many. rewrite map_map.
      apply map_ext. intro w. unfold shape, angular_momentum.
      rewrite length_map. reflexivity.
  - unfold angular_momentum, cross. cbn [map pos vel x y z].
    do 2 f_equal; ring.
  - unfold angular_momentum, cross. cbn [map pos vel x y z].
    do 2 f_equal; ring.
  - unfold angular_momentum, cross. cbn [map pos vel x y z].
    do 2 f_equal; ring.
Qed.

Section Classified.

Variable persistent : list R -> bool.
Variable min_samples : nat.

Local Abbreviation circulates := (circulates persistent).
Local Abbreviation classify_orbit := (classify_orbit persistent min_samples).

Lemma circulates_x_to_z (L : list vec3) :
  circulates (map x_to_z L) AxisX = circulates L AxisY
  /\ circulates (map x_to_z L) AxisY = circulates L AxisZ
  /\ circulates (map x_to_z L) AxisZ = circulates L AxisX.
Proof.
  unfold Dynamics.circulates. rewrite !map_map. repeat split.
Qed.

Lemma circulates_y_to_z (L : list vec3) :
  circulates (map y_to_z L) AxisX = circulates L AxisZ
  /\ circulates (map y_to_z L) AxisY = circulates L AxisX
  /\ circulates (map y_to_z L) AxisZ = circulates L AxisY.
Proof.
  unfold Dynamics.circulates. rewrite !map_map. repeat split.
Qed.

(** What [classify_orbit] returns, by the axes that circulate. *)
Lemma classify_orbit_cases (w : trajectory) :
  (min_samples <= length w)%nat ->
  classify_orbit w =
  Ok (match circulates (angular_momentum w) AxisX,
            circulates (angular_momentum w) AxisY,
            circulates (angular_momentum w) AxisZ with
      | true, false, false => Circ 1 0 0
      | false, true, false => Circ 0 1 0
      | false, false, true => Circ 0 0 1
      | _, _, _ => box
      end).
Proof.
  intro Hn. unfold Dynamics.classify_orbit.
  apply Nat.ltb_ge in Hn. rewrite Hn.
  destruct (circulates (angular_momentum w) AxisX),
           (circulates (angular_momentum w) AxisY),
           (circulates (angular_momentum w) AxisZ); reflexivity.
Qed.

Lemma classify_orbit_returns_length (w : trajectory) (c : circulation) :
  classify_orbit w = Ok c -> (min_samples <= length w)%nat.
Proof.
  unfold Dynamics.classify_orbit.
  destruct (length w <? min_samples)%nat eqn:E; [discriminate |].
  intros _. apply Nat.ltb_ge. exact E.
Qed.

(** The flags of [classify_orbit] in terms of the detector, whatever the
    detector is. *)
Lemma classify_orbit_flags (w : trajectory) :
  (min_samples <= length w)%nat ->
  exists c,
    classify_orbit w = Ok c
    /\ (flag_sum c = 0 \/ flag_sum c = 1)%nat
    /\ (forall k, flag c k = 0 \/ flag c k = 1)%nat
    /\ (forall k,
          flag c k = 1%nat <->
          circulates (angular_momentum w) k = true
          /\ forall j, j <> k -> circulates (angular_momentum w) j = false)
    /\ ((forall k, circulates (angular_momentum w) k = false) -> c = box).
Proof.
  intro Hn. eexists. split; [apply classify_orbit_cases; exact Hn |].
  destruct (circulates (angular_momentum w) AxisX) eqn:EX,
           (circulates (angular_momentum w) AxisY) eqn:EY,
           (circulates (angular_momentum w) AxisZ) eqn:EZ;
    (split; [cbn; auto |]);
    (split; [intros []; cbn; auto |]);
    (split;
     [ intros k; split;
       [ intro F; destruct k; cbn in F; try discriminate;
         (split; [assumption | intros [] Hj; congruence])
       | intros [Hk Ho]; destruct k; cbn; try reflexivity;
         try congruence;
         first [ specialize (Ho AxisX); rewrite EX in Ho;
                 (assert (true = false) by (apply Ho; discriminate));
                 discriminate
               | specialize (Ho AxisY); rewrite EY in Ho;
                 (assert (true = false) by (apply Ho; discriminate));
                 discriminate
               | specialize (Ho AxisZ); rewrite EZ in Ho;
                 (assert (true = false) by (apply Ho; discriminate));
                 discriminate ] ]
     | intro Hall;
       try (rewrite (Hall AxisX) in EX; discriminate);
       try (rewrite (Hall AxisY) in EY; discriminate);
       try (rewrite (Hall AxisZ) in EZ; discriminate);
       reflexivity ]).
Qed.

Lemma align_many_nth (ws : batch) (cs : list circulation) (n : nat) :
  nth_error (align_circulation_with_z_many ws cs) n =
  match nth_error ws n, nth_error cs n with
  | Some w, Some c => Some (align_circulation_with_z w c)
  | _, _ => None
  end.
Proof.
  unfold align_circulation_with_z_many.
  revert cs n. induction ws as [| w ws IH]; intros cs n.
  - destruct n; reflexivity.
  - destruct cs as [| c cs].
    + destruct n; cbn; [reflexivity |]. destruct (nth_error ws n); reflexivity.
    + destruct n; cbn; [reflexivity |]. apply IH.
Qed.

(** C5: after [align_circulation_with_z] a loop orbit is classified with
    its flag on the z axis (index 2); a box orbit comes back unchanged and
    is still classified all-zero; over a batch the n-th trajectory of the
    result is the n-th trajectory aligned with the n-th classification. *)
Theorem align_then_classify :
  (forall w c,
      classify_orbit w = Ok c -> flag_sum c = 1%nat ->
      classify_orbit (align_circulation_with_z w c) = Ok (Circ 0 0 1))
  /\ (forall w,
        classify_orbit w = Ok box ->
        align_circulation_with_z w box = w
        /\ classify_orbit (align_circulation_with_z w box) = Ok box)
  /\ (forall ws cs n,
        nth_error (align_circulation_with_z_many ws cs) n =
        match nth_error ws n, nth_error cs n with
        | Some w, Some c => Some (align_circulation_with_z w c)
        | _, _ => None
        end).
Proof.
  split; [| split].
  - intros w c Hc Hs.
    pose proof (classify_orbit_returns_length w c Hc) as Hn.
    rewrite classify_orbit_cases in Hc by exact Hn.
    destruct (circulates (angular_momentum w) AxisX) eqn:EX,
             (circulates (angular_momentum w) AxisY) eqn:EY,
             (circulates (angular_momentum w) AxisZ) eqn:EZ;
      injection Hc as <-; cbn in Hs; try discriminate;
      unfold align_circulation_with_z; cbn [cx cy cz flag_sum Nat.eqb orb
                                           Nat.add].
    + rewrite classify_orbit_cases by (rewrite relabel_length; exact Hn).
      rewrite angular_momentum_x_to_z.
      destruct (circulates_x_to_z (angular_momentum w)) as [-> [-> ->]].
      rewrite EX, EY, EZ. reflexivity.
    + rewrite classify_orbit_cases by (rewrite relabel_length; exact Hn).
      rewrite angular_momentum_y_to_z.
      destruct (circulates_y_to_z (angular_momentum w)) as [-> [-> ->]].
      rewrite EX, EY, EZ. reflexivity.
    + rewrite classify_orbit_cases by exact Hn.
      rewrite EX, EY, EZ. reflexivity.
  - intros w Hc. split; [reflexivity | exact Hc].
  - apply align_many_nth.
Qed.

End Classified.

Ltac decide_signs :=
  repeat match goal with
         | |- context [Rlt_dec ?a ?b] => destruct (Rlt_dec a b); try lra
         end.

Lemma classify_z_loop : classify_orbit single_sign 2 z_loop = Ok (Circ 0 0 1).
Proof.
  unfold classify_orbit, circulates, single_sign, angular_momentum, cross,
    z_loop.
  cbn [length Nat.ltb Nat.leb map pos vel x y z component forallb].
  decide_signs; reflexivity.
Qed.

Lemma classify_x_loop : classify_orbit single_sign 2 x_loop = Ok (Circ 1 0 0).
Proof.
  unfold classify_orbit, circulates, single_sign, angular_momentum, cross,
    x_loop.
  cbn [length Nat.ltb Nat.leb map pos vel x y z component forallb].
  decide_signs; reflexivity.
Qed.

Lemma single_sign_spec (series : list R) :
  single_sign series = true <-> keeps_sign series.
Proof.
  unfold single_sign, keeps_sign. rewrite orb_true_iff, !forallb_forall.
  rewrite !Forall_forall.
  split; (intros [H | H]; [left | right]; intros v Hv;
          specialize (H v Hv)).
  - destruct (Rlt_dec 0 v); [assumption | discriminate].
  - destruct (Rlt_dec v 0); [assumption | discriminate].
  - destruct (Rlt_dec 0 v); [reflexivity | contradiction].
  - destruct (Rlt_dec v 0); [reflexivity | contradiction].
Qed.

Lemma single_sign_false (series : list R) :
  single_sign series = false <-> ~ keeps_sign series.
Proof.
  rewrite <- single_sign_spec. destruct (single_sign series); split;
    intro H; try reflexivity; try discriminate.
  exfalso. apply H. reflexivity.
Qed.

(** C4: with the strict sign test, on a trajectory with enough samples,
    [classify_orbit] returns a flag vector whose flags are 0 or 1 and
    whose sum is 0 or 1; the flag of an axis is 1 exactly when the
    angular-momentum component about that axis keeps a single sign over
    all the samples (all positive or all negative) and no other component
    does; every flag is 0 when no component keeps its sign. *)
Theorem classify_orbit_exclusive (min_samples : nat) (w : trajectory) :
  (min_samples <= length w)%nat ->
  exists c,
    classify_orbit single_sign min_samples w = Ok c
    /\ (flag_sum c = 0 \/ flag_sum c = 1)%nat
    /\ (forall k, flag c k = 0 \/ flag c k = 1)%nat
    /\ (forall k,
          flag c k = 1%nat <->
          keeps_sign (map (component k) (angular_momentum w))
          /\ forall j, j <> k ->
               ~ keeps_sign (map (component j) (angular_momentum w)))
    /\ ((forall k, ~ keeps_sign (map (component k) (angular_momentum w)))
        -> c = box).
Proof.
  intro Hn.
  destruct (classify_orbit_flags single_sign min_samples w Hn)
    as [c [E [S [F [Hk Hbox]]]]].
  exists c. split; [exact E |]. split; [exact S |]. split; [exact F |].
  split.
  - intro k. rewrite (Hk k). unfold circulates. split.
    + intros [H1 H2]. split; [apply single_sign_spec; exact H1 |].
      intros j Hj. apply single_sign_false. apply H2. exact Hj.
    + intros [H1 H2]. split; [apply single_sign_spec; exact H1 |].
      intros j Hj. apply single_sign_false. apply H2. exact Hj.
  - intro Hall. apply Hbox. intro k. unfold circulates.
    apply single_sign_false. apply Hall.
Qed.

Lemma classify_orbit_exclusive_witness :
  (2 <= length z_loop)%nat
  /\ exists c,
       classify_orbit single_sign 2 z_loop = Ok c
       /\ c = Circ 0 0 1
       /\ keeps_sign (map (component AxisZ) (angular_momentum z_loop))
       /\ ~ keeps_sign (map (component AxisX) (angular_momentum z_loop)).
Proof.
  assert (Hn : (2 <= length z_loop)%nat) by (cbn; lia).
  destruct (classify_orbit_exclusive 2 z_loop Hn)
    as [c [E [_ [_ [Hk _]]]]].
  assert (Ec : c = Circ 0 0 1).
  { rewrite classify_z_loop in E. injection E as <-. reflexivity. }
  split; [exact Hn |]. exists c. split; [exact E |]. split; [exact Ec |].
  destruct (proj1 (Hk AxisZ)) as [Hz Hothers].
  - rewrite Ec. reflexivity.
  - split; [exact Hz |]. apply (Hothers AxisX). discriminate.
Defined.

Lemma align_then_classify_witness :
  classify_orbit single_sign 2 x_loop = Ok (Circ 1 0 0)
  /\ flag_sum (Circ 1 0 0) = 1%nat
  /\ classify_orbit single_sign 2
       (align_circulation_with_z x_loop (Circ 1 0 0)) = Ok (Circ 0 0 1).
Proof.
  destruct (align_then_classify single_sign 2) as [H _].
  exact (conj classify_x_loop
           (conj eq_refl (H x_loop (Circ 1 0 0) classify_x_loop eq_refl))).
Defined.

End DynamicsFacts.

(** ** More on the proper-motion rotation *)

Section ProperMotionMore.
Import Numpy Units ProperMotion.

Variables ag dg : R.

Local Abbreviation C1 := (C1 ag dg).
Local Abbreviation C2 := (C2 ag dg).
Local Abbreviation cosb_at := (cosb_at ag dg).
Local Abbreviation rotation := (rotation ag dg).
Local Abbreviation pm_gal_to_icrs := (pm_gal_to_icrs ag dg).
Local Abbreviation pm_icrs_to_gal := (pm_icrs_to_gal ag dg).

(** The cosine of the angular distance of a position to the pole. *)
Local Abbreviation to_pole i :=
  (sin dg * sin (dec i) + cos dg * cos (dec i) * cos (ra i - ag)).

Lemma direction_cosines (i : SkyCoord) :
  C1 i ^ 2 + C2 i ^ 2 + to_pole i ^ 2 = 1.
Proof.
  unfold ProperMotion.C1, ProperMotion.C2.
  pose proof (sin2_cos2 dg) as Hg.
  pose proof (sin2_cos2 (dec i)) as Hd.
  pose proof (sin2_cos2 (ra i - ag)) as Hr.
  unfold Rsqr in Hg, Hd, Hr.
  generalize dependent (sin dg). generalize dependent (cos dg).
  generalize dependent (sin (dec i)). generalize dependent (cos (dec i)).
  generalize dependent (sin (ra i - ag)).
  generalize dependent (cos (ra i - ag)).
  intros e f Hr d c Hd b a Hg.
  replace ((a * d - b * c * e) ^ 2 + (b * f) ^ 2 + (a * c + b * d * e) ^ 2)
    with (a * a * (c * c + d * d) + b * b * (e * e) * (c * c + d * d)
          + b * b * (f * f)) by ring.
  rewrite Hd.
  replace (a * a * 1 + b * b * (e * e) * 1 + b * b * (f * f))
    with (a * a + b * b * (f * f + e * e)) by ring.
  rewrite Hr. lra.
Qed.

(** X1: [cosb] is the cosine of a latitude: with the cosine of the
    distance to the pole its square adds up to 1, so it lies between 0 and
    1, and it vanishes exactly at the pole and at its antipode. *)
Theorem cosb_range (i : SkyCoord) :
  cosb_at i ^ 2 + to_pole i ^ 2 = 1
  /\ 0 <= cosb_at i <= 1
  /\ (cosb_at i = 0 <-> to_pole i = 1 \/ to_pole i = -1).
Proof.
  pose proof (direction_cosines i) as Hid.
  pose proof (cosb_sqr ag dg i) as Hsq.
  pose proof (cosb_nonneg ag dg i) as Hpos.
  assert (Hc : cosb_at i ^ 2 + to_pole i ^ 2 = 1).
  { replace (cosb_at i ^ 2) with (cosb_at i * cosb_at i) by ring.
    rewrite Hsq. exact Hid. }
  assert (Ht : 0 <= to_pole i * to_pole i) by apply Rle_0_sqr.
  assert (Hc' : cosb_at i * cosb_at i + to_pole i * to_pole i = 1).
  { rewrite Hsq. rewrite <- Hid. ring. }
  split; [exact Hc |]. split.
  - split; [exact Hpos |].
    destruct (Rle_dec (cosb_at i) 1) as [Hle | Hgt]; [exact Hle |].
    exfalso. apply Rnot_le_lt in Hgt.
    assert (1 * 1 < cosb_at i * cosb_at i)
      by (apply Rmult_le_0_lt_compat; lra).
    lra.
  - split.
    + intro E0. rewrite E0 in Hc'.
      assert (Hf : (to_pole i - 1) * (to_pole i + 1) = 0) by lra.
      apply Rmult_integral in Hf. destruct Hf; [left | right]; lra.
    + intros [E1 | E1]; rewrite E1 in Hc';
        assert (Hz : cosb_at i * cosb_at i = 0) by lra;
        apply Rmult_integral in Hz; destruct Hz; assumption.
Qed.

Lemma abs_le_cosb (c : R) (i : SkyCoord) :
  c * c <= cosb_at i * cosb_at i -> Rabs c <= cosb_at i.
Proof.
  intro H. pose proof (cosb_nonneg ag dg i) as Hpos.
  apply Rsqr_le_abs_0 in H. rewrite (Rabs_pos_eq (cosb_at i)) in H; assumption.
Qed.

Lemma abs_C1_le_cosb (i : SkyCoord) : Rabs (C1 i) <= cosb_at i.
Proof.
  apply abs_le_cosb. rewrite (cosb_sqr ag dg i).
  assert (0 <= C2 i * C2 i) by apply Rle_0_sqr. lra.
Qed.

Lemma abs_C2_le_cosb (i : SkyCoord) : Rabs (C2 i) <= cosb_at i.
Proof.
  apply abs_le_cosb. rewrite (cosb_sqr ag dg i).
  assert (0 <= C1 i * C1 i) by apply Rle_0_sqr. lra.
Qed.

Lemma abs_ratio_le_1 (c k : R) : 0 < k -> Rabs c <= k -> Rabs (c / k) <= 1.
Proof.
  intros Hk Hc. unfold Rdiv. rewrite Rabs_mult.
  rewrite (Rabs_pos_eq (/ k)) by (left; apply Rinv_0_lt_compat; exact Hk).
  apply (Rmult_le_reg_r k); [exact Hk |].
  rewrite Rmult_assoc, Rinv_l by lra. lra.
Qed.

(** X2: away from the poles every entry of the matrix of
    [pm_icrs_to_gal] lies between -1 and 1, so neither component of its
    result exceeds, in absolute value, the sum of the absolute values of
    the two components of the cos-scaled input. *)
Theorem pm_icrs_to_gal_bounded
    (i : SkyCoord) (a d : R) (ua ud : unit) (f : bool) :
  cosb_at i <> 0 -> convertible ud ua = true ->
  exists w1 w2,
    pm_icrs_to_gal i (Q (Fin a) ua, Q (Fin d) ud) f
    = Ok (Q2 (Fin w1, Fin w2) ua)
    /\ Rabs w1 <= Rabs (if f then a else a * cos (dec i))
                  + Rabs (d * (scale ud / scale ua))
    /\ Rabs w2 <= Rabs (if f then a else a * cos (dec i))
                  + Rabs (d * (scale ud / scale ua)).
Proof.
  intros Hc Hu. eexists. eexists. split.
  - apply pm_icrs_to_gal_fin; assumption.
  - pose proof (cosb_nonneg ag dg i) as Hpos.
    assert (Hk : 0 < cosb_at i) by lra.
    pose proof (abs_ratio_le_1 (C1 i) (cosb_at i) Hk (abs_C1_le_cosb i))
      as B1.
    pose proof (abs_ratio_le_1 (C2 i) (cosb_at i) Hk (abs_C2_le_cosb i))
      as B2.
    assert (B1' : Rabs (- C1 i / cosb_at i) <= 1).
    { replace (- C1 i / cosb_at i) with (- (C1 i / cosb_at i))
        by (field; exact Hc).
      rewrite Rabs_Ropp. exact B1. }
    generalize dependent (C1 i / cosb_at i).
    generalize dependent (- C1 i / cosb_at i).
    generalize dependent (C2 i / cosb_at i).
    intros r2 B2 r1' B1' r1 B1.
    generalize (if f then a else a * cos (dec i)).
    generalize (d * (scale ud / scale ua)). intros y x.
    pose proof (Rabs_pos x) as Px. pose proof (Rabs_pos y) as Py.
    split.
    + eapply Rle_trans; [apply Rabs_triang |]. rewrite !Rabs_mult.
      assert (Rabs r1 * Rabs x <= 1 * Rabs x)
        by (apply Rmult_le_compat_r; assumption).
      assert (Rabs r2 * Rabs y <= 1 * Rabs y)
        by (apply Rmult_le_compat_r; assumption).
      lra.
    + eapply Rle_trans; [apply Rabs_triang |]. rewrite !Rabs_mult.
      assert (Rabs r1' * Rabs x <= 1 * Rabs x)
        by (apply Rmult_le_compat_r; assumption).
      assert (Rabs r2 * Rabs y <= 1 * Rabs y)
        by (apply Rmult_le_compat_r; assumption).
      lra.
Qed.

(** X3: the result of [pm_icrs_to_gal] in closed form: the sum of its two
    components depends on the declination component alone and their
    difference on the right-ascension component alone; the squared length
    of the result is [2 (C1^2 s^2 + C2^2 d^2) / cosb^2] for the cos-scaled
    input [(s, d)], and it is the squared length of the input exactly when
    [(C1^2 - C2^2) (s^2 - d^2) = 0]. *)
Theorem pm_icrs_to_gal_length
    (i : SkyCoord) (a d : R) (ua ud : unit) (f : bool) :
  cosb_at i <> 0 -> convertible ud ua = true ->
  let s := if f then a else a * cos (dec i) in
  let d' := d * (scale ud / scale ua) in
  exists w1 w2,
    pm_icrs_to_gal i (Q (Fin a) ua, Q (Fin d) ud) f
    = Ok (Q2 (Fin w1, Fin w2) ua)
    /\ w1 + w2 = 2 * C2 i * d' / cosb_at i
    /\ w1 - w2 = 2 * C1 i * s / cosb_at i
    /\ w1 ^ 2 + w2 ^ 2
       = 2 * (C1 i ^ 2 * s ^ 2 + C2 i ^ 2 * d' ^ 2) / cosb_at i ^ 2
    /\ (w1 ^ 2 + w2 ^ 2 = s ^ 2 + d' ^ 2 <->
        (C1 i ^ 2 - C2 i ^ 2) * (s ^ 2 - d' ^ 2) = 0).
Proof.
  intros Hc Hu s d'. eexists. eexists. split.
  - apply pm_icrs_to_gal_fin; assumption.
  - fold s. fold d'. clearbody s d'.
    pose proof (cosb_sqr ag dg i) as Hsq.
    split; [field; exact Hc |]. split; [field; exact Hc |].
    assert (L : (C1 i / cosb_at i * s + C2 i / cosb_at i * d') ^ 2
                + (- C1 i / cosb_at i * s + C2 i / cosb_at i * d') ^ 2
                = 2 * (C1 i ^ 2 * s ^ 2 + C2 i ^ 2 * d' ^ 2)
                  / cosb_at i ^ 2) by (field; exact Hc).
    split; [exact L |]. rewrite L.
    assert (Hk : cosb_at i ^ 2 <> 0) by (apply pow_nonzero; exact Hc).
    assert (Hk2 : cosb_at i ^ 2 = C1 i ^ 2 + C2 i ^ 2)
      by (rewrite <- Hsq; ring).
    split.
    + intro E0.
      apply (f_equal (fun t => t * cosb_at i ^ 2)) in E0.
      unfold Rdiv in E0. rewrite Rmult_assoc, Rinv_l, Rmult_1_r in E0
        by exact Hk.
      rewrite Hk2 in E0. lra.
    + intro E0.
      apply (Rmult_eq_reg_r (cosb_at i ^ 2)); [| exact Hk].
      unfold Rdiv. rewrite Rmult_assoc, Rinv_l, Rmult_1_r by exact Hk.
      rewrite Hk2. lra.
Qed.

(** X4: the result of [pm_gal_to_icrs] in closed form, where the matrix
    is invertible: [(cosb (s - d) / (2 C1), cosb (s + d) / (2 C2))] for the
    cos-scaled input [(s, d)]; fed to [pm_icrs_to_gal] as a scaled vector it
    solves [R w = (s, d)]. *)
Theorem pm_gal_to_icrs_closed_form
    (i : SkyCoord) (a d : R) (ua ud : unit) (f : bool) :
  C1 i <> 0 -> C2 i <> 0 -> convertible ud ua = true ->
  let s := if f then a else a * cos (gal_b i) in
  let d' := d * (scale ud / scale ua) in
  pm_gal_to_icrs i (Q (Fin a) ua, Q (Fin d) ud) f
  = Ok (Q2 (Fin (cosb_at i * (s - d') / (2 * C1 i)),
            Fin (cosb_at i * (s + d') / (2 * C2 i))) ua)
  /\ C1 i / cosb_at i * (cosb_at i * (s - d') / (2 * C1 i))
     + C2 i / cosb_at i * (cosb_at i * (s + d') / (2 * C2 i)) = s
  /\ - C1 i / cosb_at i * (cosb_at i * (s - d') / (2 * C1 i))
     + C2 i / cosb_at i * (cosb_at i * (s + d') / (2 * C2 i)) = d'.
Proof.
  intros H1 H2 Hu s d'.
  assert (Hc : cosb_at i <> 0).
  { intro E0. apply (cosb_zero_iff ag dg) in E0. tauto. }
  split.
  - apply pm_gal_to_icrs_fin; assumption.
  - clearbody s d'. split; field; repeat split; assumption.
Qed.

Lemma pm_gal_to_icrs_mismatch
    (i : SkyCoord) (mu : Quantity * Quantity) (f : bool) :
  convertible (unit_of (snd mu)) (unit_of (fst mu)) = false ->
  pm_gal_to_icrs i mu f = Raise UnitConversionError.
Proof.
  intro Hu. destruct mu as [m1 m2]. cbn [fst snd] in Hu.
  unfold ProperMotion.pm_gal_to_icrs, to.
  replace (unit_of (if f then m1 else qscale m1 (cos (gal_b i))))
    with (unit_of m1) by (destruct f; reflexivity).
  rewrite Hu. reflexivity.
Qed.

Lemma pm_gal_to_icrs_regular
    (i : SkyCoord) (mu : Quantity * Quantity) (f : bool) :
  C1 i <> 0 -> C2 i <> 0 ->
  convertible (unit_of (snd mu)) (unit_of (fst mu)) = true ->
  returns (pm_gal_to_icrs i mu f).
Proof.
  intros H1 H2 Hu. destruct mu as [m1 m2]. cbn [fst snd] in Hu.
  assert (Hc : cosb_at i <> 0).
  { intro E0. apply (cosb_zero_iff ag dg) in E0. tauto. }
  unfold ProperMotion.pm_gal_to_icrs, to.
  replace (unit_of (if f then m1 else qscale m1 (cos (gal_b i))))
    with (unit_of m1) by (destruct f; reflexivity).
  rewrite Hu. cbn [bind].
  fold (rotation i). rewrite (rotation_fin ag dg) by exact Hc.
  rewrite linalg_inv_fin.
  - cbn [bind]. eexists. reflexivity.
  - rewrite (rotation_det ag dg) by exact Hc. intro E0.
    apply (f_equal (fun t => t * cosb_at i ^ 2)) in E0.
    field_simplify in E0; [| exact Hc].
    assert (C1 i * C2 i <> 0) by (apply Rmult_integral_contrapositive; tauto).
    lra.
Qed.

(** X5: what [pm_gal_to_icrs] does, case by case: it raises numpy's
    LinAlgError exactly when the units are convertible and the position is
    off the poles with [C1 = 0] or [C2 = 0]; it returns a vector exactly
    when the units are convertible and the position is a pole or has both
    [C1] and [C2] non-zero. *)
Theorem pm_gal_to_icrs_outcome
    (i : SkyCoord) (mu : Quantity * Quantity) (f : bool) :
  let ok := convertible (unit_of (snd mu)) (unit_of (fst mu)) in
  (pm_gal_to_icrs i mu f = Raise LinAlgError <->
   ok = true /\ cosb_at i <> 0 /\ (C1 i = 0 \/ C2 i = 0))
  /\ (returns (pm_gal_to_icrs i mu f) <->
      ok = true /\ (cosb_at i = 0 \/ (C1 i <> 0 /\ C2 i <> 0))).
Proof.
  intro ok. unfold ok. clear ok.
  destruct (convertible (unit_of (snd mu)) (unit_of (fst mu))) eqn:Hu.
  - destruct (Req_dec (cosb_at i) 0) as [Hc | Hc].
    + rewrite (pm_gal_to_icrs_pole ag dg) by assumption. split; split.
      * discriminate.
      * intros [_ [H _]]. contradiction.
      * intros _. auto.
      * intros _. eexists. reflexivity.
    + destruct (Req_dec (C1 i) 0) as [H1 | H1];
        [| destruct (Req_dec (C2 i) 0) as [H2 | H2]].
      * rewrite (pm_gal_to_icrs_singular ag dg)
          by (try assumption; rewrite H1; ring).
        split; split; auto.
        -- intros [w Ew]. discriminate.
        -- intros [_ [H | [H _]]]; contradiction.
      * rewrite (pm_gal_to_icrs_singular ag dg)
          by (try assumption; rewrite H2; ring).
        split; split; auto.
        -- intros [w Ew]. discriminate.
        -- intros [_ [H | [_ H]]]; contradiction.
      * destruct (pm_gal_to_icrs_regular i mu f H1 H2 Hu) as [w Ew].
        rewrite Ew. split; split.
        -- discriminate.
        -- intros [_ [_ [H | H]]]; contradiction.
        -- intros _. auto.
        -- intros _. eexists. reflexivity.
  - rewrite pm_gal_to_icrs_mismatch by exact Hu. split; split.
    + discriminate.
    + intros [H _]. discriminate.
    + intros [w Ew]. discriminate.
    + intros [H _]. discriminate.
Qed.

(** X6: both conversions are linear in the proper-motion vector: the
    result for the sum of two vectors is the sum of the results, and the
    result for a multiple is the multiple of the result. *)
Theorem pm_superposition
    (i : SkyCoord) (a1 d1 a2 d2 k : R) (ua ud : unit) (f : bool) :
  cosb_at i <> 0 -> convertible ud ua = true ->
  (exists u1 u2 v1 v2,
      pm_icrs_to_gal i (Q (Fin a1) ua, Q (Fin d1) ud) f
      = Ok (Q2 (Fin u1, Fin u2) ua)
      /\ pm_icrs_to_gal i (Q (Fin a2) ua, Q (Fin d2) ud) f
         = Ok (Q2 (Fin v1, Fin v2) ua)
      /\ pm_icrs_to_gal i (Q (Fin (a1 + a2)) ua, Q (Fin (d1 + d2)) ud) f
         = Ok (Q2 (Fin (u1 + v1), Fin (u2 + v2)) ua)
      /\ pm_icrs_to_gal i (Q (Fin (k * a1)) ua, Q (Fin (k * d1)) ud) f
         = Ok (Q2 (Fin (k * u1), Fin (k * u2)) ua))
  /\ (C1 i <> 0 -> C2 i <> 0 ->
      exists u1 u2 v1 v2,
        pm_gal_to_icrs i (Q (Fin a1) ua, Q (Fin d1) ud) f
        = Ok (Q2 (Fin u1, Fin u2) ua)
        /\ pm_gal_to_icrs i (Q (Fin a2) ua, Q (Fin d2) ud) f
           = Ok (Q2 (Fin v1, Fin v2) ua)
        /\ pm_gal_to_icrs i (Q (Fin (a1 + a2)) ua, Q (Fin (d1 + d2)) ud) f
           = Ok (Q2 (Fin (u1 + v1), Fin (u2 + v2)) ua)
        /\ pm_gal_to_icrs i (Q (Fin (k * a1)) ua, Q (Fin (k * d1)) ud) f
           = Ok (Q2 (Fin (k * u1), Fin (k * u2)) ua)).
Proof.
  intros Hc Hu. split.
  - do 4 eexists.
    split; [apply pm_icrs_to_gal_fin; assumption |].
    split; [apply pm_icrs_to_gal_fin; assumption |].
    rewrite !(pm_icrs_to_gal_fin ag dg) by assumption.
    generalize (scale ud / scale ua); intro r.
    split; destruct f; do 2 f_equal; f_equal; f_equal; field; exact Hc.
  - intros H1 H2. do 4 eexists.
    split; [apply pm_gal_to_icrs_fin; assumption |].
    split; [apply pm_gal_to_icrs_fin; assumption |].
    rewrite !(pm_gal_to_icrs_fin ag dg) by assumption.
    generalize (scale ud / scale ua); intro r.
    split; destruct f; do 2 f_equal; f_equal; f_equal; field; assumption.
Qed.

Lemma to_own_unit (d : R) (ua ud : unit) :
  convertible ud ua = true -> scale ua <> 0 ->
  to (Q (Fin (d * (scale ud / scale ua))) ua) ua = to (Q (Fin d) ud) ua.
Proof.
  intros Hu Hs. unfold to. cbn [unit_of value fmul].
  rewrite (convertible_refl ua), Hu. do 3 f_equal. field. exact Hs.
Qed.

(** X7: the unit in which the second component is given does not matter:
    converting it by hand to the unit of the first component before the
    call gives the same result, for both functions, at every position. *)
Theorem pm_second_unit_free
    (i : SkyCoord) (a : npfloat) (d : R) (ua ud : unit) (f : bool) :
  convertible ud ua = true -> scale ua <> 0 ->
  pm_icrs_to_gal i (Q a ua, Q (Fin (d * (scale ud / scale ua))) ua) f
  = pm_icrs_to_gal i (Q a ua, Q (Fin d) ud) f
  /\ pm_gal_to_icrs i (Q a ua, Q (Fin (d * (scale ud / scale ua))) ua) f
     = pm_gal_to_icrs i (Q a ua, Q (Fin d) ud) f.
Proof.
  intros Hu Hs.
  unfold ProperMotion.pm_icrs_to_gal, ProperMotion.pm_gal_to_icrs.
  split; destruct f; unfold qscale; cbn [unit_of];
    rewrite (to_own_unit d ua ud Hu Hs); reflexivity.
Qed.

(** X8: giving the first component in another unit gives the result in
    that unit: the same vector, both components re-expressed by the ratio
    of the two scales. *)
Theorem pm_icrs_to_gal_first_unit
    (i : SkyCoord) (a d : R) (ua ua' ud : unit) (f : bool) :
  cosb_at i <> 0 -> scale ua <> 0 -> scale ua' <> 0 ->
  convertible ud ua = true -> convertible ud ua' = true ->
  exists w1 w2,
    pm_icrs_to_gal i (Q (Fin a) ua, Q (Fin d) ud) f
    = Ok (Q2 (Fin w1, Fin w2) ua)
    /\ pm_icrs_to_gal i (Q (Fin (a * (scale ua / scale ua'))) ua',
                         Q (Fin d) ud) f
       = Ok (Q2 (Fin (w1 * (scale ua / scale ua')),
                 Fin (w2 * (scale ua / scale ua'))) ua').
Proof.
  intros Hc Hs Hs' Hu Hu'. do 2 eexists.
  split; [apply pm_icrs_to_gal_fin; assumption |].
  rewrite (pm_icrs_to_gal_fin ag dg) by assumption.
  destruct f; do 2 f_equal; f_equal; f_equal; field;
    repeat split; assumption.
Qed.

Lemma rotation_period (r de l b : R) (k : nat) :
  rotation (Sky (r + 2 * INR k * PI) de l b) = rotation (Sky r de l b).
Proof.
  unfold ProperMotion.rotation, ProperMotion.cosb_at, ProperMotion.C1,
    ProperMotion.C2. cbn [ra dec].
  replace (r + 2 * INR k * PI - ag) with (r - ag + 2 * INR k * PI) by ring.
  rewrite cos_period, sin_period. reflexivity.
Qed.

(** X9: the conversions see the right ascension only through its sine and
    cosine: adding whole turns to it changes neither result; and neither
    function reads the Galactic longitude. *)
Theorem pm_right_ascension_wraps
    (r de l b l' : R) (k : nat) (mu : Quantity * Quantity) (f : bool) :
  pm_icrs_to_gal (Sky (r + 2 * INR k * PI) de l' b) mu f
  = pm_icrs_to_gal (Sky r de l b) mu f
  /\ pm_gal_to_icrs (Sky (r + 2 * INR k * PI) de l' b) mu f
     = pm_gal_to_icrs (Sky r de l b) mu f.
Proof.
  destruct mu as [m1 m2].
  unfold ProperMotion.pm_icrs_to_gal, ProperMotion.pm_gal_to_icrs.
  cbn [dec gal_b]. fold (rotation (Sky (r + 2 * INR k * PI) de l' b)).
  fold (rotation (Sky r de l b)).
  rewrite (rotation_period r de l' b k).
  assert (E : rotation (Sky r de l' b) = rotation (Sky r de l b))
    by reflexivity.
  rewrite E. split; reflexivity.
Qed.

Lemma fadd_nan_r (x : npfloat) : fadd x NaN = NaN.
Proof. destruct x; reflexivity. Qed.

Lemma fmul_nan_r (x : npfloat) : fmul x NaN = NaN.
Proof. destruct x; reflexivity. Qed.

Lemma dot_nan_component (M : mat2 npfloat) (v : vec2 npfloat) :
  fst v = NaN \/ snd v = NaN -> dot M v = (NaN, NaN).
Proof.
  destruct v as [p q]. cbn [fst snd]. unfold dot. cbn [fst snd].
  intros [-> | ->].
  - rewrite !fmul_nan_r, !fadd_nan_l. reflexivity.
  - rewrite !fmul_nan_r, !fadd_nan_r. reflexivity.
Qed.

(** X10: a [nan] in either component of the input is not an error: with
    convertible units [pm_icrs_to_gal] returns two [nan] at every position,
    and so does [pm_gal_to_icrs] whenever it returns. *)
Theorem pm_nan_in_nan_out
    (i : SkyCoord) (mu : Quantity * Quantity) (f : bool) :
  value (fst mu) = NaN \/ value (snd mu) = NaN ->
  convertible (unit_of (snd mu)) (unit_of (fst mu)) = true ->
  pm_icrs_to_gal i mu f = Ok (Q2 (NaN, NaN) (unit_of (fst mu)))
  /\ (forall w, pm_gal_to_icrs i mu f = Ok w ->
      w = Q2 (NaN, NaN) (unit_of (fst mu))).
Proof.
  destruct mu as [[v1 u1] [v2 u2]]. cbn [fst snd value unit_of].
  intros Hn Hu.
  unfold ProperMotion.pm_icrs_to_gal, ProperMotion.pm_gal_to_icrs, to.
  split.
  - destruct f; unfold qscale; cbn [unit_of value]; rewrite Hu; cbn [bind];
      rewrite dot_nan_component;
      try reflexivity; cbn [fst snd]; destruct Hn as [-> | ->];
      auto using fmul_nan_l.
  - intro w.
    destruct f; unfold qscale; cbn [unit_of value]; rewrite Hu; cbn [bind];
      (destruct (linalg_inv (ProperMotion.rotation ag dg i)) as [M |];
       cbn [bind]; [| discriminate]);
      intro Ew; injection Ew as <-;
      rewrite dot_nan_component;
      try reflexivity; cbn [fst snd]; destruct Hn as [-> | ->];
      auto using fmul_nan_l.
Qed.

End ProperMotionMore.

Section MoreAtJ2000.
Import Numpy Units ProperMotion.

Local Abbreviation ag := ngp_ra_J2000.
Local Abbreviation dg := ngp_dec_J2000.

Lemma node_cosb_nonzero : cosb_at ag dg galactic_node <> 0.
Proof. rewrite cosb_node. lra. Qed.

Lemma deg_scale_nonzero : scale deg_per_yr <> 0.
Proof. cbn [scale deg_per_yr]. pose proof PI_RGT_0. lra. Qed.

Lemma pm_icrs_to_gal_bounded_witness :
  cosb_at ag dg galactic_node <> 0
  /\ convertible deg_per_yr mas_per_yr = true
  /\ exists w1 w2,
       pm_icrs_to_gal ag dg galactic_node
         (Q (Fin 1) mas_per_yr, Q (Fin 2) deg_per_yr) true
       = Ok (Q2 (Fin w1, Fin w2) mas_per_yr)
       /\ Rabs w1 <= Rabs 1 + Rabs (2 * (scale deg_per_yr / scale mas_per_yr))
       /\ Rabs w2 <= Rabs 1 + Rabs (2 * (scale deg_per_yr / scale mas_per_yr)).
Proof.
  exact (conj node_cosb_nonzero (conj eq_refl
           (pm_icrs_to_gal_bounded ag dg galactic_node 1 2
              mas_per_yr deg_per_yr true node_cosb_nonzero eq_refl))).
Defined.

Lemma pm_icrs_to_gal_length_witness :
  cosb_at ag dg galactic_node <> 0
  /\ convertible mas_per_yr mas_per_yr = true
  /\ exists w1 w2,
       pm_icrs_to_gal ag dg galactic_node
         (Q (Fin 1) mas_per_yr, Q (Fin 0) mas_per_yr) true
       = Ok (Q2 (Fin w1, Fin w2) mas_per_yr)
       /\ w1 + w2
          = 2 * C2 ag dg galactic_node
            * (0 * (scale mas_per_yr / scale mas_per_yr))
            / cosb_at ag dg galactic_node
       /\ w1 - w2
          = 2 * C1 ag dg galactic_node * 1 / cosb_at ag dg galactic_node
       /\ w1 ^ 2 + w2 ^ 2
          = 2 * (C1 ag dg galactic_node ^ 2 * 1 ^ 2
                 + C2 ag dg galactic_node ^ 2
                   * (0 * (scale mas_per_yr / scale mas_per_yr)) ^ 2)
            / cosb_at ag dg galactic_node ^ 2
       /\ (w1 ^ 2 + w2 ^ 2
           = 1 ^ 2 + (0 * (scale mas_per_yr / scale mas_per_yr)) ^ 2 <->
           (C1 ag dg galactic_node ^ 2 - C2 ag dg galactic_node ^ 2)
           * (1 ^ 2 - (0 * (scale mas_per_yr / scale mas_per_yr)) ^ 2) = 0).
Proof.
  exact (conj node_cosb_nonzero (conj eq_refl
           (pm_icrs_to_gal_length ag dg galactic_node 1 0
              mas_per_yr mas_per_yr true node_cosb_nonzero eq_refl))).
Defined.

Lemma pm_gal_to_icrs_closed_form_witness :
  C1 ag dg galactic_node <> 0 /\ C2 ag dg galactic_node <> 0
  /\ convertible deg_per_yr mas_per_yr = true
  /\ pm_gal_to_icrs ag dg galactic_node
       (Q (Fin 1) mas_per_yr, Q (Fin 2) deg_per_yr) true
     = Ok (Q2 (Fin (cosb_at ag dg galactic_node
                    * (1 - 2 * (scale deg_per_yr / scale mas_per_yr))
                    / (2 * C1 ag dg galactic_node)),
               Fin (cosb_at ag dg galactic_node
                    * (1 + 2 * (scale deg_per_yr / scale mas_per_yr))
                    / (2 * C2 ag dg galactic_node))) mas_per_yr).
Proof.
  exact (conj node_C1_nonzero (conj node_C2_nonzero (conj eq_refl
           (proj1 (pm_gal_to_icrs_closed_form ag dg galactic_node 1 2
                     mas_per_yr deg_per_yr true
                     node_C1_nonzero node_C2_nonzero eq_refl))))).
Defined.

Lemma pm_superposition_witness :
  cosb_at ag dg galactic_node <> 0
  /\ convertible deg_per_yr mas_per_yr = true
  /\ exists u1 u2 v1 v2,
       pm_icrs_to_gal ag dg galactic_node
         (Q (Fin 1) mas_per_yr, Q (Fin 2) deg_per_yr) false
       = Ok (Q2 (Fin u1, Fin u2) mas_per_yr)
       /\ pm_icrs_to_gal ag dg galactic_node
            (Q (Fin 3) mas_per_yr, Q (Fin 4) deg_per_yr) false
          = Ok (Q2 (Fin v1, Fin v2) mas_per_yr)
       /\ pm_icrs_to_gal ag dg galactic_node
            (Q (Fin (1 + 3)) mas_per_yr, Q (Fin (2 + 4)) deg_per_yr) false
          = Ok (Q2 (Fin (u1 + v1), Fin (u2 + v2)) mas_per_yr)
       /\ pm_icrs_to_gal ag dg galactic_node
            (Q (Fin (5 * 1)) mas_per_yr, Q (Fin (5 * 2)) deg_per_yr) false
          = Ok (Q2 (Fin (5 * u1), Fin (5 * u2)) mas_per_yr).
Proof.
  exact (conj node_cosb_nonzero (conj eq_refl
           (proj1 (pm_superposition ag dg galactic_node 1 2 3 4 5
                     mas_per_yr deg_per_yr false
                     node_cosb_nonzero eq_refl)))).
Defined.

Lemma pm_second_unit_free_witness :
  convertible deg_per_yr mas_per_yr = true /\ scale mas_per_yr <> 0
  /\ pm_gal_to_icrs ag dg galactic_node
       (Q (Fin 1) mas_per_yr,
        Q (Fin (2 * (scale deg_per_yr / scale mas_per_yr))) mas_per_yr) false
     = pm_gal_to_icrs ag dg galactic_node
         (Q (Fin 1) mas_per_yr, Q (Fin 2) deg_per_yr) false.
Proof.
  exact (conj eq_refl (conj mas_scale_nonzero
           (proj2 (pm_second_unit_free ag dg galactic_node (Fin 1) 2
                     mas_per_yr deg_per_yr false
                     eq_refl mas_scale_nonzero)))).
Defined.

Lemma pm_icrs_to_gal_first_unit_witness :
  cosb_at ag dg galactic_node <> 0
  /\ scale mas_per_yr <> 0 /\ scale deg_per_yr <> 0
  /\ convertible deg_per_yr mas_per_yr = true
  /\ convertible deg_per_yr deg_per_yr = true
  /\ exists w1 w2,
       pm_icrs_to_gal ag dg galactic_node
         (Q (Fin 1) mas_per_yr, Q (Fin 2) deg_per_yr) false
       = Ok (Q2 (Fin w1, Fin w2) mas_per_yr)
       /\ pm_icrs_to_gal ag dg galactic_node
            (Q (Fin (1 * (scale mas_per_yr / scale deg_per_yr))) deg_per_yr,
             Q (Fin 2) deg_per_yr) false
          = Ok (Q2 (Fin (w1 * (scale mas_per_yr / scale deg_per_yr)),
                    Fin (w2 * (scale mas_per_yr / scale deg_per_yr)))
                   deg_per_yr).
Proof.
  exact (conj node_cosb_nonzero (conj mas_scale_nonzero
          (conj deg_scale_nonzero (conj eq_refl (conj eq_refl
           (pm_icrs_to_gal_first_unit ag dg galactic_node 1 2
              mas_per_yr deg_per_yr deg_per_yr false
              node_cosb_nonzero mas_scale_nonzero deg_scale_nonzero
              eq_refl eq_refl)))))).
Defined.

Lemma pm_nan_in_nan_out_witness :
  (value (fst (Q NaN mas_per_yr, Q (Fin 2) deg_per_yr)) = NaN
   \/ value (snd (Q NaN mas_per_yr, Q (Fin 2) deg_per_yr)) = NaN)
  /\ convertible deg_per_yr mas_per_yr = true
  /\ pm_icrs_to_gal ag dg galactic_node
       (Q NaN mas_per_yr, Q (Fin 2) deg_per_yr) false
     = Ok (Q2 (NaN, NaN) mas_per_yr).
Proof.
  exact (conj (or_introl eq_refl) (conj eq_refl
           (proj1 (pm_nan_in_nan_out ag dg galactic_node
                     (Q NaN mas_per_yr, Q (Fin 2) deg_per_yr) false
                     (or_introl eq_refl) eq_refl)))).
Defined.

End MoreAtJ2000.

(** ** More on the orbit analyzer *)

Section DynamicsMore.
Import Dynamics.

Section Batches.

Variable persistent : list R -> bool.
Variable min_samples : nat.

Local Abbreviation circulates := (circulates persistent).
Local Abbreviation classify_orbit := (classify_orbit persistent min_samples).
Local Abbreviation classify_orbit_many :=
  (classify_orbit_many persistent min_samples).

(** The classification that follows an alignment. *)
Local Abbreviation realigned :=
  (fun c : circulation => if (flag_sum c =? 1)%nat then Circ 0 0 1 else box).

Lemma classify_after_align (w : trajectory) (c : circulation) :
  classify_orbit w = Ok c ->
  classify_orbit (align_circulation_with_z w c) = Ok (realigned c).
Proof.
  intro Hc.
  pose proof (classify_orbit_returns_length persistent min_samples w c Hc)
    as Hn.
  rewrite (classify_orbit_cases persistent min_samples) in Hc by exact Hn.
  destruct (circulates (angular_momentum w) AxisX) eqn:EX,
           (circulates (angular_momentum w) AxisY) eqn:EY,
           (circulates (angular_momentum w) AxisZ) eqn:EZ;
    injection Hc as <-;
    unfold align_circulation_with_z;
    cbn [cx cy cz flag_sum Nat.eqb orb Nat.add box];
    try (rewrite (classify_orbit_cases persistent min_samples) by exact Hn;
         rewrite ?EX, ?EY, ?EZ; reflexivity).
  - rewrite (classify_orbit_cases persistent min_samples)
      by (rewrite relabel_length; exact Hn).
    rewrite angular_momentum_x_to_z.
    destruct (circulates_x_to_z persistent (angular_momentum w))
      as [-> [-> ->]].
    rewrite EX, EY, EZ. reflexivity.
  - rewrite (classify_orbit_cases persistent min_samples)
      by (rewrite relabel_length; exact Hn).
    rewrite angular_momentum_y_to_z.
    destruct (circulates_y_to_z persistent (angular_momentum w))
      as [-> [-> ->]].
    rewrite EX, EY, EZ. reflexivity.
Qed.

(** X12: classify a batch, align it with the result and classify again:
    the second classification returns, with the flag on z for every orbit
    that had a flag and all-zero for every box. *)
Theorem classify_aligned_batch (ws : batch) (cs : list circulation) :
  classify_orbit_many ws = Ok cs ->
  classify_orbit_many (align_circulation_with_z_many ws cs)
  = Ok (map realigned cs).
Proof.
  revert cs. induction ws as [| w ws IH]; intros cs H.
  - cbn in H. injection H as <-. reflexivity.
  - cbn [Dynamics.classify_orbit_many] in H.
    destruct (classify_orbit w) as [c |] eqn:Ec; cbn [bind] in H;
      [| discriminate].
    destruct (classify_orbit_many ws) as [cs' |] eqn:Ecs; cbn [bind] in H;
      [| discriminate].
    injection H as <-.
    unfold align_circulation_with_z_many.
    cbn [combine map fst snd Dynamics.classify_orbit_many].
    rewrite (classify_after_align w c Ec). cbn [bind].
    fold (align_circulation_with_z_many ws cs').
    rewrite (IH cs' eq_refl). reflexivity.
Qed.

(** X13: alignment is idempotent: a trajectory that has been aligned with
    its classification is left as it is when aligned again with its new
    classification, and it keeps its number of samples. *)
Theorem align_idempotent (w : trajectory) (c c' : circulation) :
  classify_orbit w = Ok c ->
  classify_orbit (align_circulation_with_z w c) = Ok c' ->
  align_circulation_with_z (align_circulation_with_z w c) c'
  = align_circulation_with_z w c
  /\ length (align_circulation_with_z w c) = length w.
Proof.
  intros Hc Hc'. rewrite (classify_after_align w c Hc) in Hc'.
  injection Hc' as <-. split.
  - cbv beta. destruct (flag_sum c =? 1)%nat; reflexivity.
  - unfold align_circulation_with_z.
    destruct ((cz c =? 1)%nat || (flag_sum c =? 0)%nat); [reflexivity |].
    destruct (cx c =? 1)%nat; [apply relabel_length |].
    destruct (cy c =? 1)%nat; [apply relabel_length | reflexivity].
Qed.

End Batches.

Ltac sign_cases :=
  repeat match goal with
         | |- context [Rlt_dec ?a ?b] => destruct (Rlt_dec a b); try lra
         end.

Lemma classify_two_loops :
  classify_orbit_many single_sign 2 [x_loop; z_loop]
  = Ok [Circ 1 0 0; Circ 0 0 1].
Proof.
  cbn [classify_orbit_many]. rewrite classify_x_loop, classify_z_loop.
  reflexivity.
Qed.

Lemma classify_x_loop_aligned :
  classify_orbit single_sign 2
    (align_circulation_with_z x_loop (Circ 1 0 0)) = Ok (Circ 0 0 1).
Proof.
  unfold classify_orbit, circulates, single_sign, angular_momentum, cross,
    align_circulation_with_z, relabel, x_to_z, x_loop.
  cbn [length Nat.ltb Nat.leb map pos vel x y z component forallb
       cx cy cz flag_sum Nat.eqb orb Nat.add].
  sign_cases; reflexivity.
Qed.

Lemma classify_aligned_batch_witness :
  classify_orbit_many single_sign 2 [x_loop; z_loop]
  = Ok [Circ 1 0 0; Circ 0 0 1]
  /\ classify_orbit_many single_sign 2
       (align_circulation_with_z_many [x_loop; z_loop]
          [Circ 1 0 0; Circ 0 0 1])
     = Ok [Circ 0 0 1; Circ 0 0 1].
Proof.
  exact (conj classify_two_loops
           (classify_aligned_batch single_sign 2 [x_loop; z_loop]
              [Circ 1 0 0; Circ 0 0 1] classify_two_loops)).
Defined.

Lemma align_idempotent_witness :
  classify_orbit single_sign 2 x_loop = Ok (Circ 1 0 0)
  /\ classify_orbit single_sign 2
       (align_circulation_with_z x_loop (Circ 1 0 0)) = Ok (Circ 0 0 1)
  /\ align_circulation_with_z
       (align_circulation_with_z x_loop (Circ 1 0 0)) (Circ 0 0 1)
     = align_circulation_with_z x_loop (Circ 1 0 0).
Proof.
  exact (conj classify_x_loop (conj classify_x_loop_aligned
           (proj1 (align_idempotent single_sign 2 x_loop
                     (Circ 1 0 0) (Circ 0 0 1)
                     classify_x_loop classify_x_loop_aligned)))).
Defined.

End DynamicsMore.

(** ** The orbits of known family *)

Section KnownOrbitFacts.
Import Numpy KnownOrbit.

Variable potential_value : R -> R -> R -> R.
Variable orbit : Type.
Variable integrate_orbit : list npfloat -> R -> Z -> orbit.

Lemma np_sqrt_nonneg (t : R) : 0 <= t -> np_sqrt t = Fin (sqrt t).
Proof.
  intro H. unfold np_sqrt, is_neg.
  destruct (Rlt_dec t 0); [lra | reflexivity].
Qed.

Lemma np_sqrt_neg (t : R) : t < 0 -> np_sqrt t = NaN.
Proof.
  intro H. unfold np_sqrt, is_neg.
  destruct (Rlt_dec t 0); [reflexivity | lra].
Qed.

(** X14: where the potential at the starting point does not exceed
    [E = -0.337], [make_known_orbit] starts the integration at
    [(x, 0, 0)] with velocity [(vx, vy, 0)], [vy >= 0], and the energy of
    that starting point is [E + vx^2 / 2]: it is [E] only for [vx = 0];
    where the potential exceeds [E] the integration is started with
    [vy = nan]. *)
Theorem make_known_orbit_energy (x0 vx : R) :
  (potential_value x0 0 0 <= E ->
   exists v,
     0 <= v
     /\ make_known_orbit potential_value orbit integrate_orbit x0 vx
        = integrate_orbit [Fin x0; Fin 0; Fin 0; Fin vx; Fin v; Fin 0]
                          0.05 10000%Z
     /\ (vx ^ 2 + v ^ 2) / 2 + potential_value x0 0 0 = E + vx ^ 2 / 2)
  /\ (E < potential_value x0 0 0 ->
      make_known_orbit potential_value orbit integrate_orbit x0 vx
      = integrate_orbit [Fin x0; Fin 0; Fin 0; Fin vx; NaN; Fin 0]
                        0.05 10000%Z).
Proof.
  unfold make_known_orbit, w0, vy. split.
  - intro H. exists (sqrt (2 * (E - potential_value x0 0 0))).
    split; [apply sqrt_pos |]. split.
    + rewrite np_sqrt_nonneg by lra. reflexivity.
    + rewrite pow2_sqrt by lra. field.
  - intro H. rewrite np_sqrt_neg by lra. reflexivity.
Qed.

End KnownOrbitFacts.

Lemma make_known_orbit_energy_witness :
  (fun _ _ _ : R => -1) 0.5 0 0 <= KnownOrbit.E
  /\ exists v,
       0 <= v
       /\ KnownOrbit.make_known_orbit (fun _ _ _ => -1)
            (list Numpy.npfloat) (fun w _ _ => w) 0.5 0
          = [Numpy.Fin 0.5; Numpy.Fin 0; Numpy.Fin 0; Numpy.Fin 0;
             Numpy.Fin v; Numpy.Fin 0]
       /\ (0 ^ 2 + v ^ 2) / 2 + -1 = KnownOrbit.E + 0 ^ 2 / 2.
Proof.
  assert (H : (fun _ _ _ : R => -1) 0.5 0 0 <= KnownOrbit.E)
    by (unfold KnownOrbit.E; lra).
  exact (conj H
           (proj1 (make_known_orbit_energy (fun _ _ _ => -1)
                     (list Numpy.npfloat) (fun w _ _ => w) 0.5 0) H)).
Defined.
